(** * go-jamf-guid-sharder: the partition engine

    A shallow embedding of the sharding engine of [cmd/shard.go] and
    [cmd/strategies.go]: exclusions, reservations, the four distribution
    strategies and the seeded sequencer, followed by the properties the
    specification states about them.

    Conventions of the embedding.
    - A Go [int] is a [Z]; every addition and subtraction the source
      performs on [int] is wrapped to 64 bits with [wrap64].
    - A Go [[]string] that the program only reads is a [list string]; where
      the difference between a nil slice and an empty one is observable
      (the shard buckets and the reserved lists, which end up in the JSON
      output) it is a [slice].
    - A Go [map] that the program iterates over is an association list whose
      order is the order in which [range] visits it. Go leaves that order
      unspecified, so statements about a whole run quantify over it.
    - A run-time panic (index or slice bounds out of range) is [None].
    - The functions of the Go standard library the engine calls
      (crypto/sha256, math/rand, slices.SortFunc) are the fields of the
      class [StdLib], with the part of their contract the engine relies on. *)

From Stdlib Require Import ZArith Lia DecimalString.
From Stdlib.Strings Require Import Ascii String Byte.
From stdpp Require Import base numbers option list sorting gmap strings.

Local Open Scope string_scope.
Local Open Scope list_scope.
Local Open Scope Z_scope.

(** ** Machine integers *)

Definition minInt64 : Z := - 2 ^ 63.
Definition maxInt64 : Z := 2 ^ 63 - 1.

(** Two's-complement wrap-around of a 64-bit signed [int]. *)
Definition wrap64 (z : Z) : Z := (z + 2 ^ 63) `mod` 2 ^ 64 - 2 ^ 63.

(** ** strconv *)

Definition isDigit (c : ascii) : bool :=
  let n := nat_of_ascii c in ((48 <=? n) && (n <=? 57))%nat.

Definition digitVal (c : ascii) : Z := Z.of_nat (nat_of_ascii c) - 48.

Fixpoint allDigits (s : string) : bool :=
  match s with
  | EmptyString => true
  | String c r => isDigit c && allDigits r
  end.

Fixpoint digitsValue (acc : Z) (s : string) : Z :=
  match s with
  | EmptyString => acc
  | String c r => digitsValue (acc * 10 + digitVal c) r
  end.

Inductive numError := ErrSyntax | ErrRange.

(** [strconv.ParseInt(s, 10, 64)]: the value returned and the error, if any.
    A syntax error returns 0, a range error the nearest bound. *)
Definition ParseInt (s : string) : Z * option numError :=
  match s with
  | EmptyString => (0, Some ErrSyntax)
  | String c r =>
      let neg := Ascii.eqb c "-" in
      let body := if Ascii.eqb c "+" || Ascii.eqb c "-" then r else s in
      match body with
      | EmptyString => (0, Some ErrSyntax)
      | _ =>
          if allDigits body then
            let un := digitsValue 0 body in
            if negb neg && (2 ^ 63 <=? un) then (maxInt64, Some ErrRange)
            else if neg && (2 ^ 63 <? un) then (minInt64, Some ErrRange)
            else (if neg then - un else un, None)
          else (0, Some ErrSyntax)
      end
  end.

(** [n, _ := strconv.Atoi(s)]: the error is dropped by every caller. *)
Definition Atoi (s : string) : Z := (ParseInt s).1.

(** [fmt.Sprintf("%d", z)]. *)
Definition itoa (z : Z) : string := NilZero.string_of_int (Z.to_int z).

(** ** fmt.Sscanf(shardName, "shard_%d", &idx) *)

Fixpoint stripPrefix (p s : string) : option string :=
  match p, s with
  | EmptyString, _ => Some s
  | String a p', String b s' => if Ascii.eqb a b then stripPrefix p' s' else None
  | String _ _, EmptyString => None
  end.

(** The ASCII part of [fmt]'s [isSpace], newline apart. *)
Definition isScanSpace (c : ascii) : bool :=
  let n := nat_of_ascii c in
  ((n =? 9) || (n =? 11) || (n =? 12) || (n =? 13) || (n =? 32))%nat.

(** [ss.SkipSpace] of a [Sscanf]: a newline before the number is an
    error. Spaces outside ASCII are not modelled. *)
Fixpoint skipSpace (s : string) : option string :=
  match s with
  | EmptyString => Some s
  | String c r =>
      if (nat_of_ascii c =? 10)%nat then None
      else if isScanSpace c then skipSpace r
      else Some s
  end.

(** [ss.scanNumber] with the digits that [getBase] gives the verb [%d],
    [decimalDigits = "0123456789"]: the longest run of such characters. *)
Fixpoint scanNumber (s : string) : string :=
  match s with
  | String c r => if isDigit c then String c (scanNumber r) else EmptyString
  | EmptyString => EmptyString
  end.

(** The index scanned from a shard name, [None] when [Sscanf] reports an
    error. Input left over after the number is not an error. *)
Definition Sscanf_shard (shardName : string) : option Z :=
  rest ← stripPrefix "shard_" shardName;
  rest ← skipSpace rest;
  let '(sign, rest) :=
    match rest with
    | String c r =>
        if Ascii.eqb c "+" || Ascii.eqb c "-" then (String c EmptyString, r)
        else (EmptyString, rest)
    | EmptyString => (EmptyString, rest)
    end in
  match scanNumber rest with
  | EmptyString => None
  | tok =>
      match ParseInt (sign +:+ tok) with
      | (v, None) => Some v
      | (_, Some _) => None
      end
  end.

(** ** Slices whose nil-ness is observable *)

Inductive slice := nilSlice | Slice (l : list string).

Definition elems (s : slice) : list string :=
  match s with
  | nilSlice => []
  | Slice l => l
  end.

(** [append(s, xs...)]: appending nothing returns [s] itself, nil or not. *)
Definition append (s : slice) (xs : list string) : slice :=
  match xs with
  | [] => s
  | _ => Slice (elems s ++ xs)
  end.

(** [l[lo:hi]], panicking when the bounds are out of range. *)
Definition subslice (l : list string) (lo hi : Z) : option slice :=
  if decide (0 ≤ lo ∧ lo ≤ hi ∧ hi ≤ Z.of_nat (length l))
  then Some (Slice (take (Z.to_nat (hi - lo)) (drop (Z.to_nat lo) l)))
  else None.

(** ** Pool partitioner *)

Inductive shardError :=
| InvalidShardName (shardName : string)
| ShardOutOfRange (shardName : string) (shardCount : Z)
| DuplicateReservation (id prev shardName : string)
| UnknownStrategy (strategy : string).

(** An iterated Go map from shard names to reserved lists, in the order
    [range] visits it. *)
Abbreviation reservedMap := (list (string * slice)).

Record shardReservations := {
  IDsByShard : reservedMap;
  CountsByShard : gmap Z Z;
  UnreservedIDs : list string
}.

(** [m[k] = v] on an association list: replace the entry of [k], or add one. *)
Fixpoint setEntry (k : string) (v : slice) (m : reservedMap) : reservedMap :=
  match m with
  | [] => [(k, v)]
  | (k', v') :: m' => if decide (k' = k) then (k, v) :: m' else (k', v') :: setEntry k v m'
  end.

Definition applyExclusions (ids excludeIDs : list string) : list string :=
  if decide (length excludeIDs = 0%nat) then ids
  else
    let excludeSet : gset string := list_to_set excludeIDs in
    filter (λ id, id ∉ excludeSet) ids.

(** The inner loop of [applyReservations] over one shard's list. *)
Fixpoint markSeen (shardName : string) (idList : list string)
    (seenIDs : gmap string string) : shardError + gmap string string :=
  match idList with
  | [] => inr seenIDs
  | id :: rest =>
      match seenIDs !! id with
      | Some prev => inl (DuplicateReservation id prev shardName)
      | None => markSeen shardName rest (<[id := shardName]> seenIDs)
      end
  end.

(** The outer loop of [applyReservations] over the reservation map. *)
Fixpoint reserveLoop (entries : reservedMap) (shardCount : Z)
    (seenIDs : gmap string string) (byShard : reservedMap) (counts : gmap Z Z)
    : shardError + (gmap string string * reservedMap * gmap Z Z) :=
  match entries with
  | [] => inr (seenIDs, byShard, counts)
  | (shardName, idList) :: rest =>
      match Sscanf_shard shardName with
      | None => inl (InvalidShardName shardName)
      | Some shardIndex =>
          if decide (shardIndex < 0 ∨ shardIndex >= shardCount)
          then inl (ShardOutOfRange shardName shardCount)
          else
            match markSeen shardName (elems idList) seenIDs with
            | inl e => inl e
            | inr seenIDs' =>
                reserveLoop rest shardCount seenIDs'
                  (setEntry shardName idList byShard)
                  (<[shardIndex := Z.of_nat (length (elems idList))]> counts)
            end
      end
  end.

Definition applyReservations (ids : list string) (reserved : reservedMap)
    (shardCount : Z) : shardError + shardReservations :=
  if decide (length reserved = 0%nat)
  then inr {| IDsByShard := []; CountsByShard := ∅; UnreservedIDs := ids |}
  else
    match reserveLoop reserved shardCount ∅ [] ∅ with
    | inl e => inl e
    | inr (seenIDs, byShard, counts) =>
        let unreserved :=
          if decide (0 < size seenIDs)%nat then
            let reservedSet : gset string := dom seenIDs in
            filter (λ id, id ∉ reservedSet) ids
          else ids in
        inr {| IDsByShard := byShard; CountsByShard := counts; UnreservedIDs := unreserved |}
    end.

(** ** The standard library the engine calls *)

Class StdLib := {
  (** [sha256.Sum256] *)
  Sum256 : list byte → list byte;
  Sum256_length : ∀ m, length (Sum256 m) = 32%nat;
  (** [*rand.Rand]: [rand.New(rand.NewSource(seed))] and [Intn], which
      advances the generator *)
  Rand : Type;
  NewRand : Z → Rand;
  Intn : Rand → Z → Z * Rand;
  Intn_range : ∀ rng n, 0 < n → 0 ≤ (Intn rng n).1 < n;
  (** [slices.SortFunc]: a permutation of its input, ascending whenever the
      comparison is the one induced by a key on the elements; not stable *)
  SortFunc : (string → string → Z) → list string → list string;
  SortFunc_perm : ∀ cmp l, SortFunc cmp l ≡ₚ l;
  SortFunc_sorted : ∀ cmp (key : string → Z) l,
    (∀ a b, a ∈ l → b ∈ l → (cmp a b < 0 ↔ key a < key b)) →
    StronglySorted (λ a b, key a ≤ key b) (SortFunc cmp l)
}.

(** [binary.BigEndian.Uint64(hash[:8])] *)
Definition Uint64 (b : list byte) : Z :=
  foldl (λ acc x, acc * 256 + Z.of_N (Byte.to_N x)) 0 (take 8 b).

Section Engine.
Context `{StdLib}.

(** ** Deterministic sequencer *)

Definition cmpIDs (a b : string) : Z := wrap64 (Atoi a - Atoi b).

Definition sortIDsNumerically (ids : list string) : list string :=
  SortFunc cmpIDs ids.

Definition createSeededRNG (seed : string) : Rand :=
  let hash := Sum256 (list_byte_of_string seed) in
  let seedValue := wrap64 (Uint64 hash) in
  NewRand seedValue.

(** [s[i], s[j] = s[j], s[i]] *)
Definition swap (s : list string) (i j : nat) : list string :=
  match s !! i, s !! j with
  | Some x, Some y => <[j := x]> (<[i := y]> s)
  | _, _ => s
  end.

(** The loop [for i := len-1; i > 0; i--] of [shuffleIDs]. *)
Fixpoint fisherYates (i : nat) (rng : Rand) (shuffled : list string) : list string :=
  match i with
  | O => shuffled
  | S i' =>
      let '(j, rng') := Intn rng (Z.of_nat i + 1) in
      fisherYates i' rng' (swap shuffled i (Z.to_nat j))
  end.

Definition shuffleIDs (ids : list string) (seed : string) : list string :=
  fisherYates (length ids - 1) (createSeededRNG seed) ids.

Definition sortAndShuffleIfSeed (ids : list string) (seed : string) : list string :=
  if decide (seed = "") then ids
  else shuffleIDs (sortIDsNumerically ids) seed.

(** ** Strategy engine *)

Definition unreservedOf (ids : list string) (reservations : option shardReservations)
    : list string :=
  match reservations with
  | Some r => UnreservedIDs r
  | None => ids
  end.

(** The loop [for shardName, reservedIDs := range reservations.IDsByShard]
    that every strategy ends with. The error of [Sscanf] is dropped there,
    so a name that does not scan leaves [idx] at 0; [shards[idx]] panics when
    [idx] is out of range. *)
Fixpoint mergeReserved (entries : reservedMap) (shards : list slice)
    : option (list slice) :=
  match entries with
  | [] => Some shards
  | (shardName, reservedIDs) :: rest =>
      let idx := default 0 (Sscanf_shard shardName) in
      if decide (0 ≤ idx) then
        s ← shards !! Z.to_nat idx;
        mergeReserved rest (<[Z.to_nat idx := append reservedIDs (elems s)]> shards)
      else None
  end.

(** [sortIDsNumerically(shards[i])], in place: nil stays nil. *)
Definition sortSlice (s : slice) : slice :=
  match s with
  | nilSlice => nilSlice
  | Slice l => Slice (sortIDsNumerically l)
  end.

(** The tail shared by the four strategies: merge the reservations, then
    sort every bucket. *)
Definition finishShards (reservations : option shardReservations)
    (shards : list slice) : option (list slice) :=
  let merged : option (list slice) :=
    match reservations with
    | Some r => mergeReserved (IDsByShard r) shards
    | None => Some shards
    end in
  match merged with
  | Some shards' => Some (sortSlice <$> shards')
  | None => None
  end.

(** The loop [for i, id := range distributionIDs] of [shardByRoundRobin]. *)
Fixpoint roundRobin (shardCount : Z) (i : Z) (distributionIDs : list string)
    (shards : list slice) : list slice :=
  match distributionIDs with
  | [] => shards
  | id :: rest =>
      roundRobin shardCount (i + 1) rest
        (alter (λ s, append s [id]) (Z.to_nat (i `rem` shardCount)) shards)
  end.

Definition shardByRoundRobin (ids : list string) (shardCount : Z) (seed : string)
    (reservations : option shardReservations) : option (list slice) :=
  let shardCount := if decide (shardCount ≤ 0) then 1 else shardCount in
  let unreservedIDs := unreservedOf ids reservations in
  let shards := replicate (Z.to_nat shardCount) nilSlice in
  let distributionIDs := sortAndShuffleIfSeed unreservedIDs seed in
  finishShards reservations (roundRobin shardCount 0 distributionIDs shards).

(** [int(float64(totalIDs) * float64(percentage) / 100.0)]. The product and
    the quotient are exact in float64 while the product stays below 2^53,
    and the conversion truncates toward zero. *)
Definition floatPercent (totalIDs percentage : Z) : Z :=
  (totalIDs * percentage) `quot` 100.

(** [reservations.CountsByShard[i]], zero for an index the map does not hold. *)
Definition reservedCount (reservations : option shardReservations) (i : Z) : Z :=
  match reservations with
  | Some r => default 0 (CountsByShard r !! i)
  | None => 0
  end.

(** The loop [for i, percentage := range percentages] of
    [shardByPercentage], with [currentIndex] and [shards] as its state. *)
Fixpoint carveByPercentage (totalIDs shardCount : Z)
    (reservations : option shardReservations)
    (unreservedIDs distributionIDs : list string)
    (i : Z) (percentages : list Z) (currentIndex : Z) (shards : list slice)
    : option (list slice) :=
  match percentages with
  | [] => Some shards
  | percentage :: rest =>
      let n := Z.of_nat (length unreservedIDs) in
      let shardSize :=
        if decide (i = shardCount - 1) then n - currentIndex
        else wrap64 (floatPercent totalIDs percentage - reservedCount reservations i) in
      let shardSize :=
        if decide (wrap64 (currentIndex + shardSize) > n) then n - currentIndex
        else shardSize in
      if decide (shardSize > 0) then
        s ← subslice distributionIDs currentIndex (wrap64 (currentIndex + shardSize));
        carveByPercentage totalIDs shardCount reservations unreservedIDs distributionIDs
          (i + 1) rest (wrap64 (currentIndex + shardSize)) (<[Z.to_nat i := s]> shards)
      else
        carveByPercentage totalIDs shardCount reservations unreservedIDs distributionIDs
          (i + 1) rest currentIndex shards
  end.

Definition shardByPercentage (ids : list string) (percentages : list Z) (seed : string)
    (reservations : option shardReservations) : option (list slice) :=
  let unreservedIDs := unreservedOf ids reservations in
  let totalIDs := Z.of_nat (length ids) in
  let shardCount := Z.of_nat (length percentages) in
  let shards := replicate (length percentages) nilSlice in
  if decide (length unreservedIDs = 0%nat) then Some shards
  else
    let distributionIDs := sortAndShuffleIfSeed unreservedIDs seed in
    shards' ← carveByPercentage totalIDs shardCount reservations
                unreservedIDs distributionIDs 0 percentages 0 shards;
    finishShards reservations shards'.

(** The loop [for i, size := range sizes] of [shardBySize]. *)
Fixpoint carveBySize (reservations : option shardReservations)
    (unreservedIDs distributionIDs : list string)
    (i : Z) (sizes : list Z) (currentIndex : Z) (shards : list slice)
    : option (list slice) :=
  match sizes with
  | [] => Some shards
  | size :: rest =>
      let n := Z.of_nat (length unreservedIDs) in
      let shardSize :=
        if decide (size = -1) then n - currentIndex
        else
          let shardSize := wrap64 (size - reservedCount reservations i) in
          if decide (wrap64 (currentIndex + shardSize) > n) then n - currentIndex
          else shardSize in
      if decide (shardSize > 0 ∧ currentIndex < n) then
        s ← subslice distributionIDs currentIndex (wrap64 (currentIndex + shardSize));
        carveBySize reservations unreservedIDs distributionIDs
          (i + 1) rest (wrap64 (currentIndex + shardSize)) (<[Z.to_nat i := s]> shards)
      else
        carveBySize reservations unreservedIDs distributionIDs
          (i + 1) rest currentIndex (<[Z.to_nat i := Slice []]> shards)
  end.

Definition shardBySize (ids : list string) (sizes : list Z) (seed : string)
    (reservations : option shardReservations) : option (list slice) :=
  let unreservedIDs := unreservedOf ids reservations in
  let shards := replicate (length sizes) nilSlice in
  if decide (length unreservedIDs = 0%nat) then Some shards
  else
    let distributionIDs := sortAndShuffleIfSeed unreservedIDs seed in
    shards' ← carveBySize reservations unreservedIDs distributionIDs 0 sizes 0 shards;
    finishShards reservations shards'.

(** The rendezvous weight of [id] for shard [shardIdx]: the first 8 bytes of
    the digest of ["<id>:shard_<shardIdx>:<seed>"]. *)
Definition weight (id : string) (shardIdx : Z) (seed : string) : Z :=
  let input := id +:+ ":shard_" +:+ itoa shardIdx +:+ ":" +:+ seed in
  let hash := Sum256 (list_byte_of_string input) in
  Uint64 hash.

(** One round of the loop [for shardIdx := range shardCount], on the pair
    [(highestWeight, selectedShard)]. *)
Definition considerShard (id seed : string) (best : Z * Z) (shardIdx : Z) : Z * Z :=
  let w := weight id shardIdx seed in
  if decide (w > best.1) then (w, shardIdx) else best.

Definition selectShard (id seed : string) (shardCount : Z) : Z :=
  (foldl (considerShard id seed) (0, 0) (seqZ 0 shardCount)).2.

(** The loop [for _, id := range unreservedIDs] of [shardByRendezvous]. *)
Fixpoint rendezvous (shardCount : Z) (seed : string) (unreservedIDs : list string)
    (shards : list slice) : list slice :=
  match unreservedIDs with
  | [] => shards
  | id :: rest =>
      let selectedShard := selectShard id seed shardCount in
      rendezvous shardCount seed rest
        (alter (λ s, append s [id]) (Z.to_nat selectedShard) shards)
  end.

Definition shardByRendezvous (ids : list string) (shardCount : Z) (seed : string)
    (reservations : option shardReservations) : option (list slice) :=
  let shardCount := if decide (shardCount ≤ 0) then 1 else shardCount in
  let unreservedIDs := unreservedOf ids reservations in
  let shards := replicate (Z.to_nat shardCount) (Slice []) in
  finishShards reservations (rendezvous shardCount seed unreservedIDs shards).

(** ** Configuration and dispatch *)

Record shardConfig := {
  Strategy : string;
  ShardCount : Z;
  ShardPercentages : list Z;
  ShardSizes : list Z;
  Seed : string;
  ExcludeIDs : list string;
  ReservedIDs : reservedMap
}.

Definition resolveShardCount (cfg : shardConfig) : Z :=
  if decide (0 < length (ShardPercentages cfg))%nat then Z.of_nat (length (ShardPercentages cfg))
  else if decide (0 < length (ShardSizes cfg))%nat then Z.of_nat (length (ShardSizes cfg))
  else ShardCount cfg.

Definition applyStrategy (cfg : shardConfig) (ids : list string)
    (reservations : option shardReservations) : shardError + option (list slice) :=
  if decide (Strategy cfg = "round-robin")
  then inr (shardByRoundRobin ids (ShardCount cfg) (Seed cfg) reservations)
  else if decide (Strategy cfg = "rendezvous")
  then inr (shardByRendezvous ids (ShardCount cfg) (Seed cfg) reservations)
  else if decide (Strategy cfg = "percentage")
  then inr (shardByPercentage ids (ShardPercentages cfg) (Seed cfg) reservations)
  else if decide (Strategy cfg = "size")
  then inr (shardBySize ids (ShardSizes cfg) (Seed cfg) reservations)
  else inl (UnknownStrategy (Strategy cfg)).

(** What a run of the engine ends with. *)
Inductive outcome :=
| Failed (e : shardError)
| Panicked
| Shards (shards : list slice).

Definition outcomeOf (r : shardError + option (list slice)) : outcome :=
  match r with
  | inl e => Failed e
  | inr None => Panicked
  | inr (Some shards) => Shards shards
  end.

(** The reservations as a strategy sees them when [range] visits
    [IDsByShard] in the order [visit]. *)
Definition visited (info : shardReservations) (visit : reservedMap) : shardReservations :=
  {| IDsByShard := visit;
     CountsByShard := CountsByShard info;
     UnreservedIDs := UnreservedIDs info |}.

(** The engine part of [runShard], from the fetched identifiers to the
    buckets. The two loops over a map may visit it in any order. *)
Inductive runShard (cfg : shardConfig) (sourceIDs : list string) : outcome → Prop :=
| runShard_reservations_fail visit e :
    visit ≡ₚ ReservedIDs cfg →
    applyReservations (applyExclusions sourceIDs (ExcludeIDs cfg)) visit
      (resolveShardCount cfg) = inl e →
    runShard cfg sourceIDs (Failed e)
| runShard_strategy visit info visit' :
    visit ≡ₚ ReservedIDs cfg →
    applyReservations (applyExclusions sourceIDs (ExcludeIDs cfg)) visit
      (resolveShardCount cfg) = inr info →
    visit' ≡ₚ IDsByShard info →
    runShard cfg sourceIDs
      (outcomeOf (applyStrategy cfg (applyExclusions sourceIDs (ExcludeIDs cfg))
                    (Some (visited info visit')))).

End Engine.

(** * The validator

    [cmd/validate.go]. The validator reads the whole [shardConfig] of the
    source. The fields the engine does not read (the credentials, the
    source and the output format) are held in [clientConfig], beside the
    record of the sharding fields above; the fields that tune the HTTP
    client, which no function below reads, are left out.

    Every validator appends to the slice of issues it is handed; here it
    takes that slice and returns it. A message is held as an [issue]: the
    check that failed and the values its format prints, without the wording.
    [quotedList], which only words a message, is not embedded. *)

Record clientConfig := {
  InstanceDomain : string;
  AuthMethod : string;
  ClientID : string;
  ClientSecret : string;
  Username : string;
  Password : string;
  SourceType : string;
  GroupID : string;
  OutputFormat : string
}.

(** A parameter named in the message of the exactly-one-of check. *)
Inductive setName :=
| SetShardCount (shardCount : Z)
| SetShardPercentages (percentages : list Z)
| SetShardSizes (sizes : list Z).

Inductive issue :=
| InstanceDomainRequired
| ClientIDRequired
| ClientSecretRequired
| BasicAuthFieldsIgnored
| UsernameRequired
| PasswordRequired
| OAuth2FieldsIgnored
| AuthMethodRequired
| AuthMethodNotValid (authMethod : string)
| SourceTypeRequired (validSources : list string)
| SourceTypeNotValid (sourceType : string) (validSources : list string)
| GroupIDRequired (sourceType : string)
| GroupIDNotNumeric (groupID : string)
| GroupIDNotUsed (groupID sourceType : string)
| NoneProvided
| MultipleProvided (setNames : list setName)
| StrategyRequired (validStrategies : list string)
| StrategyNotValid (strategy : string) (validStrategies : list string)
| RequiresShardCount (strategy : string)
| RequiresShardPercentages
| RequiresShardSizes
| ShardCountNotUsed (strategy : string)
| ShardPercentagesNotUsed (strategy : string)
| ShardSizesNotUsed (strategy : string)
| ShardCountTooSmall (shardCount : Z)
| PercentageNegative (i p : Z)
| PercentagesSum (sum : Z) (percentages : list Z)
| SizeNotValid (i s : Z)
| RemainderNotLast (i : Z)
| ExcludeIDNotNumeric (i : Z) (id : string)
| ReservedKeyNotValid (key : string)
| ReservedIDNotNumeric (key : string) (i : Z) (id : string)
| ExcludedAndReserved (id shardName : string)
| ReservedInMultipleShards (id prev shardName : string)
| OutputFormatRequired
| OutputFormatNotValid (outputFormat : string).

(** [numericIDRe], the pattern [^\d+$]. *)
Definition numericIDRe (s : string) : bool :=
  match s with
  | EmptyString => false
  | _ => allDigits s
  end.

(** [shardNameRe], the pattern [^shard_\d+$]. *)
Definition shardNameRe (s : string) : bool :=
  match stripPrefix "shard_" s with
  | Some rest => numericIDRe rest
  | None => false
  end.

Definition validateAuth (cfg : clientConfig) (issues : list issue) : list issue :=
  let issues :=
    if decide (InstanceDomain cfg = "") then issues ++ [InstanceDomainRequired]
    else issues in
  if decide (AuthMethod cfg = "oauth2") then
    let issues :=
      if decide (ClientID cfg = "") then issues ++ [ClientIDRequired] else issues in
    let issues :=
      if decide (ClientSecret cfg = "") then issues ++ [ClientSecretRequired] else issues in
    if decide (Username cfg ≠ "" ∨ Password cfg ≠ "")
    then issues ++ [BasicAuthFieldsIgnored] else issues
  else if decide (AuthMethod cfg = "basic") then
    let issues :=
      if decide (Username cfg = "") then issues ++ [UsernameRequired] else issues in
    let issues :=
      if decide (Password cfg = "") then issues ++ [PasswordRequired] else issues in
    if decide (ClientID cfg ≠ "" ∨ ClientSecret cfg ≠ "")
    then issues ++ [OAuth2FieldsIgnored] else issues
  else if decide (AuthMethod cfg = "") then issues ++ [AuthMethodRequired]
  else issues ++ [AuthMethodNotValid (AuthMethod cfg)].

Definition validSources : list string :=
  ["computer_inventory"; "mobile_device_inventory"; "computer_group_membership";
   "mobile_device_group_membership"; "user_accounts"].

Definition validateSource (cfg : clientConfig) (issues : list issue) : list issue :=
  let sourceValid := bool_decide (SourceType cfg ∈ validSources) in
  let issues :=
    if negb sourceValid then
      if decide (SourceType cfg = "") then issues ++ [SourceTypeRequired validSources]
      else issues ++ [SourceTypeNotValid (SourceType cfg) validSources]
    else issues in
  let groupRequired :=
    bool_decide (SourceType cfg = "computer_group_membership") ||
    bool_decide (SourceType cfg = "mobile_device_group_membership") in
  let issues :=
    if groupRequired && bool_decide (GroupID cfg = "")
    then issues ++ [GroupIDRequired (SourceType cfg)] else issues in
  if decide (GroupID cfg ≠ "") then
    let issues :=
      if negb (numericIDRe (GroupID cfg)) then issues ++ [GroupIDNotNumeric (GroupID cfg)]
      else issues in
    if negb groupRequired && sourceValid
    then issues ++ [GroupIDNotUsed (GroupID cfg) (SourceType cfg)] else issues
  else issues.

Definition validStrategies : list string :=
  ["round-robin"; "percentage"; "size"; "rendezvous"].

(** The loop [for i, p := range cfg.ShardPercentages] that reports the
    negative percentages. *)
Fixpoint negativePercentages (i : Z) (percentages : list Z) (issues : list issue)
    : list issue :=
  match percentages with
  | [] => issues
  | p :: rest =>
      negativePercentages (i + 1) rest
        (if decide (p < 0) then issues ++ [PercentageNegative i p] else issues)
  end.

(** The loop [for _, p := range cfg.ShardPercentages { sum += p }]. *)
Definition sumPercentages (percentages : list Z) : Z :=
  foldl (λ sum p, wrap64 (sum + p)) 0 percentages.

(** The loop [for i, s := range cfg.ShardSizes], [len] being the length of
    the whole list. *)
Fixpoint invalidSizes (len : Z) (i : Z) (sizes : list Z) (issues : list issue)
    : list issue :=
  match sizes with
  | [] => issues
  | s :: rest =>
      let issues :=
        if decide (s ≠ -1 ∧ s < 1) then issues ++ [SizeNotValid i s] else issues in
      let issues :=
        if decide (s = -1 ∧ i ≠ len - 1) then issues ++ [RemainderNotLast i] else issues in
      invalidSizes len (i + 1) rest issues
  end.

Definition validateShardingParameters (cfg : shardConfig) (issues : list issue)
    : list issue :=
  let hasCount := bool_decide (ShardCount cfg > 0) in
  let hasPct := bool_decide (0 < length (ShardPercentages cfg))%nat in
  let hasSizes := bool_decide (0 < length (ShardSizes cfg))%nat in
  let setCount := 0 in
  let setNames : list setName := [] in
  let '(setCount, setNames) :=
    if hasCount then (setCount + 1, setNames ++ [SetShardCount (ShardCount cfg)])
    else (setCount, setNames) in
  let '(setCount, setNames) :=
    if hasPct then (setCount + 1, setNames ++ [SetShardPercentages (ShardPercentages cfg)])
    else (setCount, setNames) in
  let '(setCount, setNames) :=
    if hasSizes then (setCount + 1, setNames ++ [SetShardSizes (ShardSizes cfg)])
    else (setCount, setNames) in
  (* what follows the exactly-one-of check, when it does not return *)
  let strategyChecks (issues : list issue) : list issue :=
    let strategyValid := bool_decide (Strategy cfg ∈ validStrategies) in
    if negb strategyValid then
      if decide (Strategy cfg = "") then issues ++ [StrategyRequired validStrategies]
      else issues ++ [StrategyNotValid (Strategy cfg) validStrategies]
    else
      let issues :=
        if decide (Strategy cfg = "round-robin" ∨ Strategy cfg = "rendezvous") then
          let issues :=
            if negb hasCount then issues ++ [RequiresShardCount (Strategy cfg)]
            else issues in
          let issues :=
            if hasPct then issues ++ [ShardPercentagesNotUsed (Strategy cfg)]
            else issues in
          if hasSizes then issues ++ [ShardSizesNotUsed (Strategy cfg)] else issues
        else if decide (Strategy cfg = "percentage") then
          let issues :=
            if negb hasPct then issues ++ [RequiresShardPercentages] else issues in
          let issues :=
            if hasCount then issues ++ [ShardCountNotUsed "percentage"] else issues in
          if hasSizes then issues ++ [ShardSizesNotUsed "percentage"] else issues
        else if decide (Strategy cfg = "size") then
          let issues :=
            if negb hasSizes then issues ++ [RequiresShardSizes] else issues in
          let issues :=
            if hasCount then issues ++ [ShardCountNotUsed "size"] else issues in
          if hasPct then issues ++ [ShardPercentagesNotUsed "size"] else issues
        else issues in
      let issues :=
        if hasCount && bool_decide (ShardCount cfg < 1)
        then issues ++ [ShardCountTooSmall (ShardCount cfg)] else issues in
      let issues :=
        if hasPct then
          let issues := negativePercentages 0 (ShardPercentages cfg) issues in
          let sum := sumPercentages (ShardPercentages cfg) in
          if decide (sum ≠ 100)
          then issues ++ [PercentagesSum sum (ShardPercentages cfg)] else issues
        else issues in
      if hasSizes
      then invalidSizes (Z.of_nat (length (ShardSizes cfg))) 0 (ShardSizes cfg) issues
      else issues in
  if decide (setCount = 0) then strategyChecks (issues ++ [NoneProvided])
  else if decide (setCount > 1) then issues ++ [MultipleProvided setNames]
  else strategyChecks issues.

(** The loop [for i, id := range ids] over a list of identifiers, [report]
    being the message for one that is not numeric. *)
Fixpoint notNumeric (report : Z → string → issue) (i : Z) (ids : list string)
    (issues : list issue) : list issue :=
  match ids with
  | [] => issues
  | id :: rest =>
      notNumeric report (i + 1) rest
        (if negb (numericIDRe id) then issues ++ [report i id] else issues)
  end.

(** The loop [for key, ids := range cfg.ReservedIDs] of [validateIDFormats]. *)
Fixpoint reservedFormats (entries : reservedMap) (issues : list issue) : list issue :=
  match entries with
  | [] => issues
  | (key, ids) :: rest =>
      let issues :=
        if negb (shardNameRe key) then issues ++ [ReservedKeyNotValid key] else issues in
      reservedFormats rest (notNumeric (ReservedIDNotNumeric key) 0 (elems ids) issues)
  end.

Definition validateIDFormats (cfg : shardConfig) (issues : list issue) : list issue :=
  let issues := notNumeric ExcludeIDNotNumeric 0 (ExcludeIDs cfg) issues in
  reservedFormats (ReservedIDs cfg) issues.

(** The inner loop [for _, id := range ids] of [validateIDConflicts]. *)
Fixpoint conflictsIn (excludeSet : gset string) (shardName : string) (ids : list string)
    (seenReserved : gmap string string) (issues : list issue)
    : gmap string string * list issue :=
  match ids with
  | [] => (seenReserved, issues)
  | id :: rest =>
      let issues :=
        if decide (id ∈ excludeSet) then issues ++ [ExcludedAndReserved id shardName]
        else issues in
      match seenReserved !! id with
      | Some prev =>
          conflictsIn excludeSet shardName rest seenReserved
            (issues ++ [ReservedInMultipleShards id prev shardName])
      | None =>
          conflictsIn excludeSet shardName rest (<[id := shardName]> seenReserved) issues
      end
  end.

(** The outer loop [for shardName, ids := range cfg.ReservedIDs]. *)
Fixpoint conflicts (excludeSet : gset string) (entries : reservedMap)
    (seenReserved : gmap string string) (issues : list issue)
    : gmap string string * list issue :=
  match entries with
  | [] => (seenReserved, issues)
  | (shardName, ids) :: rest =>
      let '(seenReserved, issues) :=
        conflictsIn excludeSet shardName (elems ids) seenReserved issues in
      conflicts excludeSet rest seenReserved issues
  end.

Definition validateIDConflicts (cfg : shardConfig) (issues : list issue) : list issue :=
  if decide (length (ExcludeIDs cfg) = 0%nat ∧ length (ReservedIDs cfg) = 0%nat)
  then issues
  else
    let excludeSet : gset string := list_to_set (ExcludeIDs cfg) in
    (conflicts excludeSet (ReservedIDs cfg) ∅ issues).2.

Definition validateOutput (cfg : clientConfig) (issues : list issue) : list issue :=
  if decide (OutputFormat cfg ≠ "json" ∧ OutputFormat cfg ≠ "yaml") then
    if decide (OutputFormat cfg = "") then issues ++ [OutputFormatRequired]
    else issues ++ [OutputFormatNotValid (OutputFormat cfg)]
  else issues.

(** [validateShardConfig]: [None] for a nil error; the error otherwise,
    held as the issues its message counts and lists. *)
Definition validateShardConfig (client : clientConfig) (cfg : shardConfig)
    : option (list issue) :=
  let issues := [] in
  let issues := validateAuth client issues in
  let issues := validateSource client issues in
  let issues := validateShardingParameters cfg issues in
  let issues := validateIDFormats cfg issues in
  let issues := validateIDConflicts cfg issues in
  let issues := validateOutput client issues in
  if decide (length issues = 0%nat) then None else Some issues.

(** * Vocabulary of the statements *)

(** ** Reservations *)

(** Every identifier reserved by a map, shard after shard. *)
Definition reservedIDsOf (rm : reservedMap) : list string :=
  rm ≫= λ e, elems e.2.

(** Some key of the map scans to an index outside [0, shardCount). *)
Definition indexOutOfRange (rm : reservedMap) (shardCount : Z) : Prop :=
  ∃ key lst idx, (key, lst) ∈ rm ∧ Sscanf_shard key = Some idx ∧
    ¬ (0 ≤ idx < shardCount).

(** Some identifier is in the lists of two different shards. *)
Definition reservedInTwoShards (rm : reservedMap) : Prop :=
  ∃ id k1 l1 k2 l2, k1 ≠ k2 ∧ (k1, l1) ∈ rm ∧ (k2, l2) ∈ rm ∧
    id ∈ elems l1 ∧ id ∈ elems l2.

Definition inRange (shardCount : Z) (e : string * slice) : Prop :=
  ∃ idx, Sscanf_shard e.1 = Some idx ∧ 0 ≤ idx < shardCount.

Definition recordEntry (m : reservedMap) (e : string * slice) : reservedMap :=
  setEntry e.1 e.2 m.

Definition recordCount (m : gmap Z Z) (e : string * slice) : gmap Z Z :=
  <[default 0 (Sscanf_shard e.1) := Z.of_nat (length (elems e.2))]> m.


(** ** Identifiers *)

(** Identifiers as the data model has them: decimal numerals, two of which
    are the same identifier when they have the same value. *)
Definition numericIDs (l : list string) : Prop :=
  Forall (λ s, numericIDRe s = true) l ∧
  ∀ a b, a ∈ l → b ∈ l → Atoi a = Atoi b → a = b.

(** The reservations of the pool ["7"] with "7" pinned to shard 0. *)
Definition pinned7 : shardReservations :=
  {| IDsByShard := [("shard_0", Slice ["7"])];
     CountsByShard := {[ 0 := 1 ]};
     UnreservedIDs := [] |}.

(** The reservations of the pool ["2"] with "1" pinned to shard 0. *)
Definition pinned1 : shardReservations :=
  {| IDsByShard := [("shard_0", Slice ["1"])];
     CountsByShard := {[ 0 := 1 ]};
     UnreservedIDs := ["2"] |}.

(** ** Buckets *)

(** Every identifier of every bucket, bucket after bucket. *)
Definition allElems (shards : list slice) : list string := shards ≫= elems.

(** The list index a strategy merges a reserved entry into. *)
Definition bucketOf (e : string * slice) : Z := default 0 (Sscanf_shard e.1).

(** The identifiers the entries reserve for bucket [i]. *)
Definition reservedAt (entries : reservedMap) (i : nat) : list string :=
  filter (λ e, Z.to_nat (bucketOf e) = i) entries ≫= λ e, elems e.2.

(** The reserved entries a strategy merges. *)
Definition entriesOf (reservations : option shardReservations) : reservedMap :=
  match reservations with
  | Some r => IDsByShard r
  | None => []
  end.

(** Every reserved entry names a bucket below [n]. *)
Definition fits (n : Z) (reservations : option shardReservations) : Prop :=
  Forall (λ e, 0 ≤ bucketOf e < n) (entriesOf reservations).

(** ** Shares of the percentage and size strategies, as the specification
    words them *)

(** A target clamped to what remains of the pool, and to zero from below. *)
Definition clampShare (target remaining : Z) : Z := Z.max 0 (Z.min target remaining).

(** The shares of the shards from index [i] on, [consumed] identifiers having
    been handed out before; [target i p remaining] is the target of shard
    [i] with parameter [p]. *)
Fixpoint sharesFrom (target : Z → Z → Z → Z) (n i : Z) (params : list Z)
    (consumed : Z) : list Z :=
  match params with
  | [] => []
  | p :: rest =>
      let share := clampShare (target i p (n - consumed)) (n - consumed) in
      share :: sharesFrom target n (i + 1) rest (consumed + share)
  end.

(** Percentage: floor(T * p / 100) less the reserved count, the last shard
    taking what remains. *)
Definition percentageTarget (T : Z) (count : Z → Z) (last : Z) (i p remaining : Z) : Z :=
  if decide (i = last) then remaining else T * p / 100 - count i.

(** Size: the size less the reserved count, an entry -1 taking what remains. *)
Definition sizeTarget (count : Z → Z) (i s remaining : Z) : Z :=
  if decide (s = -1) then remaining else s - count i.

(** Contiguous pieces of the sequenced pool, one per share; a shard with no
    share keeps the bucket [empty]. *)
Fixpoint carved (empty : slice) (dist : list string) (shs : list Z) (cur : Z)
    : list slice :=
  match shs with
  | [] => []
  | share :: rest =>
      (if decide (share > 0)
       then Slice (take (Z.to_nat share) (drop (Z.to_nat cur) dist))
       else empty)
      :: carved empty dist rest (cur + share)
  end.

Definition sumZ (l : list Z) : Z := foldr Z.add 0 l.

(** The shares the specification gives the shards of a percentage run. *)
Definition percentageShares (ids : list string) (percentages : list Z)
    (reservations : option shardReservations) : list Z :=
  sharesFrom
    (percentageTarget (Z.of_nat (length ids)) (reservedCount reservations)
       (Z.of_nat (length percentages) - 1))
    (Z.of_nat (length (unreservedOf ids reservations))) 0 percentages 0.

(** The shares the specification gives the shards of a size run. *)
Definition sizeShares (ids : list string) (sizes : list Z)
    (reservations : option shardReservations) : list Z :=
  sharesFrom (sizeTarget (reservedCount reservations))
    (Z.of_nat (length (unreservedOf ids reservations))) 0 sizes 0.

(** ** Validated runs *)

(** The parameter shapes that [validateShardingParameters] lets through:
    exactly one of the three parameters, the one the strategy requires. *)
Definition validatedParameters (cfg : shardConfig) : Prop :=
  ((Strategy cfg = "round-robin" ∨ Strategy cfg = "rendezvous") ∧
     0 < ShardCount cfg ∧ ShardPercentages cfg = [] ∧ ShardSizes cfg = []) ∨
  (Strategy cfg = "percentage" ∧ ShardCount cfg ≤ 0 ∧
     ShardPercentages cfg ≠ [] ∧ ShardSizes cfg = [] ∧
     Forall (λ p, 0 ≤ p) (ShardPercentages cfg) ∧ sumZ (ShardPercentages cfg) = 100) ∨
  (Strategy cfg = "size" ∧ ShardCount cfg ≤ 0 ∧
     ShardPercentages cfg = [] ∧ ShardSizes cfg ≠ [] ∧
     Forall (λ s, s = -1 ∨ 1 ≤ s) (ShardSizes cfg) ∧
     ∀ i, ShardSizes cfg !! i = Some (-1) → S i = length (ShardSizes cfg)).



(** Round-robin over two shards, one identifier excluded, one pinned. *)
Definition roundRobinRun : shardConfig :=
  {| Strategy := "round-robin"; ShardCount := 2;
     ShardPercentages := []; ShardSizes := [];
     Seed := "wave"; ExcludeIDs := ["4"];
     ReservedIDs := [("shard_1", Slice ["1"])] |}.

(** Sizes without a remainder entry, smaller than the pool. *)
Definition sizesWithoutRemainder : shardConfig :=
  {| Strategy := "size"; ShardCount := 0;
     ShardPercentages := []; ShardSizes := [1; 1];
     Seed := ""; ExcludeIDs := []; ReservedIDs := [] |}.

(** A reservation of an identifier that is not in the pool. *)
Definition strangerReserved : shardConfig :=
  {| Strategy := "round-robin"; ShardCount := 1;
     ShardPercentages := []; ShardSizes := [];
     Seed := ""; ExcludeIDs := []; ReservedIDs := [("shard_0", Slice ["9"])] |}.

(** The pool ["1", ..., "10"] with "11" pinned to shard 0. *)
Definition tenIDs : list string := ["1"; "2"; "3"; "4"; "5"; "6"; "7"; "8"; "9"; "10"].

Definition pinned11 : shardReservations :=
  {| IDsByShard := [("shard_0", Slice ["11"])];
     CountsByShard := {[ 0 := 1 ]};
     UnreservedIDs := tenIDs |}.

(** The identifier lists that [validateIDConflicts] lets through. *)
Definition withoutConflicts (cfg : shardConfig) : Prop :=
  NoDup (reservedIDsOf (ReservedIDs cfg)) ∧
  ∀ id, id ∈ reservedIDsOf (ReservedIDs cfg) → id ∉ ExcludeIDs cfg.




(** A size of [math.MaxInt64] after a first shard. *)
Definition hugeSize : shardConfig :=
  {| Strategy := "size"; ShardCount := 0;
     ShardPercentages := []; ShardSizes := [1; 9223372036854775807; -1];
     Seed := ""; ExcludeIDs := []; ReservedIDs := [] |}.

(** ** A runnable instance of the standard library

    Go's [slices.SortFunc] sorts slices of at most 12 elements with the
    insertion sort below ([insertionSortCmpFunc]); the digest and the
    generator are small stand-ins, enough to run the engine on examples. *)

(** Move [x] left from the end of the prefix while it compares below its
    left neighbour; the prefix is held last element first. *)
Fixpoint insertBack (cmp : string → string → Z) (x : string) (prefix : list string)
    : list string :=
  match prefix with
  | [] => [x]
  | y :: r => if decide (cmp x y < 0) then y :: insertBack cmp x r else x :: prefix
  end.

Definition insertionSortCmpFunc (cmp : string → string → Z) (data : list string)
    : list string :=
  reverse (foldl (λ prefix x, insertBack cmp x prefix) [] data).

(** A stand-in for SHA-256: the 64-bit FNV-1a hash of the message, most
    significant byte first, padded with zero bytes to 32 bytes. *)
Definition fnv1a (m : list byte) : Z :=
  foldl (λ h b, (Z.lxor h (Z.of_N (Byte.to_N b)) * 1099511628211) `mod` 2 ^ 64)
    14695981039346656037 m.

Definition byteOf (z : Z) : byte :=
  default "000"%byte (Byte.of_N (Z.to_N (z `mod` 256))).

Definition fnvDigest (m : list byte) : list byte :=
  ((λ k, byteOf (fnv1a m `div` 256 ^ k)) <$> [7; 6; 5; 4; 3; 2; 1; 0])
  ++ replicate 24 "000"%byte.

Definition lcgIntn (rng : Z) (n : Z) : Z * Z :=
  (rng `mod` n, (rng * 6364136223846793005 + 1442695040888963407) `mod` 2 ^ 64).

#[local, refine] Instance runnableLib : StdLib := {|
  Sum256 := fnvDigest;
  Rand := Z;
  NewRand := λ seed, seed `mod` 2 ^ 64;
  Intn := lcgIntn;
  SortFunc := insertionSortCmpFunc
|}.
Proof.
  - reflexivity.
  - intros rng n Hn. simpl. by apply Z.mod_pos_bound.
  - intros cmp data. unfold insertionSortCmpFunc. rewrite reverse_Permutation.
    assert (Hins : ∀ x prefix, insertBack cmp x prefix ≡ₚ x :: prefix).
    { intros x prefix. induction prefix as [|y r IH]; simpl; [done|].
      case_decide; [|done]. rewrite IH. apply Permutation_swap. }
    cut (∀ acc, foldl (λ prefix x, insertBack cmp x prefix) acc data ≡ₚ data ++ acc).
    { intros Hc. rewrite Hc. by rewrite app_nil_r. }
    induction data as [|x data IH]; intros acc; simpl; [done|].
    rewrite IH, Hins. by rewrite Permutation_middle.
  - intros cmp key data Hcmp. unfold insertionSortCmpFunc.
    assert (Hins : ∀ x prefix, insertBack cmp x prefix ≡ₚ x :: prefix).
    { intros x prefix. induction prefix as [|y r IH]; simpl; [done|].
      case_decide; [|done]. rewrite IH. apply Permutation_swap. }
    assert (Hsorted : ∀ x prefix,
      (∀ y, y ∈ prefix → (cmp x y < 0 ↔ key x < key y)) →
      StronglySorted (λ a b, key b ≤ key a) prefix →
      StronglySorted (λ a b, key b ≤ key a) (insertBack cmp x prefix)).
    { intros x prefix Hx Hs. induction Hs as [|y r Hr IH Hy]; simpl.
      { repeat constructor. }
      assert (Hxy : cmp x y < 0 ↔ key x < key y) by (apply Hx; left).
      case_decide as Hlt.
      - constructor.
        + apply IH. intros z Hz. apply Hx. by right.
        + rewrite Hins. constructor; [lia|done].
      - constructor; [by constructor|].
        constructor; [lia|].
        eapply Forall_impl; [exact Hy|]. simpl. intros z Hz. lia. }
    cut (∀ rest acc, (∀ z, z ∈ rest → z ∈ data) → (∀ z, z ∈ acc → z ∈ data) →
           StronglySorted (λ a b, key b ≤ key a) acc →
           StronglySorted (λ a b, key b ≤ key a)
             (foldl (λ prefix x, insertBack cmp x prefix) acc rest)).
    { intros Hc.
      specialize (Hc data [] (λ z Hz, Hz)
                    (λ z Hz, False_ind _ (proj1 (elem_of_nil z) Hz))
                    (SSorted_nil _)).
      revert Hc. generalize (foldl (λ prefix x, insertBack cmp x prefix) [] data).
      intros l Hl. induction Hl as [|y r Hr IH Hy]; [constructor|].
      rewrite reverse_cons. apply StronglySorted_app_2; [|done|repeat constructor].
      intros a b Ha Hb. apply list_elem_of_singleton in Hb as ->.
      rewrite elem_of_reverse in Ha. rewrite Forall_forall in Hy. by apply Hy. }
    intros rest. induction rest as [|x rest IH]; intros acc Hrest Hacc Hs; simpl; [done|].
    apply IH.
    + intros z Hz. apply Hrest. by right.
    + intros z Hz. rewrite Hins in Hz. apply elem_of_cons in Hz as [->|Hz].
      * apply Hrest. by left.
      * by apply Hacc.
    + apply Hsorted; [|done]. intros y Hy. apply Hcmp; [apply Hrest; by left|by apply Hacc].
Defined.

(** * Properties *)

(** ** Machine arithmetic *)

Lemma wrap64_small z : minInt64 ≤ z ≤ maxInt64 → wrap64 z = z.
Proof.
  unfold wrap64, minInt64, maxInt64. intros Hz.
  rewrite Z.mod_small by lia. lia.
Qed.

(** ** Pool partitioner *)


Lemma reservedIDsOf_cons k l rm :
  reservedIDsOf ((k, l) :: rm) = elems l ++ reservedIDsOf rm.
Proof. done. Qed.

Lemma markSeen_inr name l seen seen' :
  markSeen name l seen = inr seen' →
  NoDup l ∧ (∀ id, id ∈ l → seen !! id = None) ∧
  (∀ id, seen' !! id = if decide (id ∈ l) then Some name else seen !! id).
Proof.
  revert seen. induction l as [|x l IH]; intros seen Hm; simpl in Hm.
  { simplify_eq. split_and!; [constructor|set_solver|].
    intros id. by rewrite decide_False by set_solver. }
  destruct (seen !! x) eqn:Hx; [done|].
  apply IH in Hm as (Hnd & Hfresh & Hlook). split_and!.
  - constructor; [|done]. intros Hin. apply Hfresh in Hin.
    by rewrite lookup_insert_eq in Hin.
  - intros id [->|Hin]%elem_of_cons; [done|].
    apply Hfresh in Hin. rewrite lookup_insert in Hin. by case_decide.
  - intros id. rewrite Hlook. repeat case_decide; try done.
    + set_solver.
    + apply elem_of_cons in H0 as [->|?]; [|done]. by rewrite lookup_insert_eq.
    + rewrite lookup_insert_ne; [done|set_solver].
Qed.

Lemma markSeen_inl name l seen e :
  markSeen name l seen = inl e →
  ∃ id prev, e = DuplicateReservation id prev name ∧ id ∈ l ∧
    (seen !! id = Some prev ∨ (prev = name ∧ ¬ NoDup l)).
Proof.
  revert seen. induction l as [|x l IH]; intros seen Hm; simpl in Hm; [done|].
  destruct (seen !! x) as [prev|] eqn:Hx.
  { simplify_eq. exists x, prev. split_and!; [done|by left|by left]. }
  apply IH in Hm as (id & prev & -> & Hin & Hcase).
  exists id, prev. split_and!; [done|by right|].
  rewrite lookup_insert in Hcase. case_decide as Hid.
  - destruct Hcase as [[= <-]|[-> Hnd]]; right; split; try done.
    + subst. by intros [? ?]%NoDup_cons.
    + intros [? ?]%NoDup_cons. done.
  - destruct Hcase as [?|[-> Hnd]]; [by left|right]. split; [done|].
    by intros [? ?]%NoDup_cons.
Qed.

Lemma markSeen_total name l seen :
  NoDup l → (∀ id, id ∈ l → seen !! id = None) →
  ∃ seen', markSeen name l seen = inr seen'.
Proof.
  revert seen. induction l as [|x l IH]; intros seen Hnd Hfresh; simpl; [by eexists|].
  apply NoDup_cons in Hnd as [Hx Hnd].
  rewrite Hfresh by left. apply IH; [done|].
  intros id Hin. rewrite lookup_insert_ne by set_solver. apply Hfresh. by right.
Qed.

Lemma reserveLoop_inr entries n seen byShard counts seen' byShard' counts' :
  reserveLoop entries n seen byShard counts = inr (seen', byShard', counts') →
  Forall (inRange n) entries ∧
  NoDup (reservedIDsOf entries) ∧
  (∀ id, id ∈ reservedIDsOf entries → seen !! id = None) ∧
  dom seen' = dom seen ∪ list_to_set (reservedIDsOf entries) ∧
  byShard' = foldl recordEntry byShard entries ∧
  counts' = foldl recordCount counts entries.
Proof.
  revert seen byShard counts.
  induction entries as [|[k l] entries IH]; intros seen byShard counts Hr; simpl in Hr.
  { simplify_eq. split_and!; try done; [constructor|set_solver|set_solver]. }
  destruct (Sscanf_shard k) as [idx|] eqn:Hk; [|done].
  case_decide as Hidx; [done|].
  destruct (markSeen k (elems l) seen) as [|seen1] eqn:Hm; [done|].
  apply markSeen_inr in Hm as (Hnd & Hfresh & Hlook).
  apply IH in Hr as (Hall & Hnd' & Hfresh' & Hdom & -> & ->).
  assert (Hdisj : ∀ id, id ∈ reservedIDsOf entries → id ∉ elems l).
  { intros id Hin Hl. apply Hfresh' in Hin. rewrite Hlook in Hin.
    by rewrite decide_True in Hin. }
  rewrite reservedIDsOf_cons. split_and!.
  - constructor; [|done]. exists idx. simpl. split; [done|lia].
  - apply NoDup_app. split_and!; [done| |done]. intros id Hl Hin. by eapply Hdisj.
  - intros id [Hl|Hin]%elem_of_app; [by apply Hfresh|].
    specialize (Hfresh' id Hin). rewrite Hlook in Hfresh'. by case_decide.
  - rewrite Hdom. apply set_eq. intros id.
    rewrite !elem_of_union, !elem_of_list_to_set, elem_of_app, !elem_of_dom, Hlook.
    case_decide; [|tauto]. split; [tauto|]. intros _; left; by eexists.
  - done.
  - cbn [foldl]. f_equal. unfold recordCount. cbn [fst snd]. by rewrite Hk.
Qed.

Lemma reserveLoop_inl entries n seen byShard counts e :
  reserveLoop entries n seen byShard counts = inl e →
  (∃ key, e = InvalidShardName key ∧ key ∈ entries.*1 ∧ Sscanf_shard key = None) ∨
  (∃ key lst idx, e = ShardOutOfRange key n ∧ (key, lst) ∈ entries ∧
     Sscanf_shard key = Some idx ∧ ¬ (0 ≤ idx < n)) ∨
  (∃ id prev cur lst, e = DuplicateReservation id prev cur ∧
     (cur, lst) ∈ entries ∧ id ∈ elems lst ∧
     (seen !! id = Some prev ∨ ∃ lst', (prev, lst') ∈ entries ∧ id ∈ elems lst') ∧
     ¬ (NoDup (reservedIDsOf entries) ∧
        ∀ id', id' ∈ reservedIDsOf entries → seen !! id' = None)).
Proof.
  revert seen byShard counts.
  induction entries as [|[k l] entries IH]; intros seen byShard counts Hr; simpl in Hr;
    [done|].
  destruct (Sscanf_shard k) as [idx|] eqn:Hk.
  2:{ simplify_eq. left. exists k. split_and!; [done|by left|done]. }
  case_decide as Hidx.
  { simplify_eq. right; left. exists k, l, idx. split_and!; [done|by left|done|lia]. }
  destruct (markSeen k (elems l) seen) as [e'|seen1] eqn:Hm.
  { simplify_eq. apply markSeen_inl in Hm as (id & prev & -> & Hin & Hcase).
    right; right. exists id, prev, k, l. split_and!; [done|by left|done| |].
    - destruct Hcase as [?|[-> _]]; [by left|right]. exists l. split; [by left|done].
    - rewrite reservedIDsOf_cons. intros [Hnd Hfresh].
      destruct Hcase as [Hp|[_ Hl]].
      + rewrite Hfresh in Hp; [done|]. apply elem_of_app; by left.
      + by apply NoDup_app in Hnd as (? & _). }
  apply markSeen_inr in Hm as (Hnd & Hfresh & Hlook).
  apply IH in Hr as [(key & -> & Hin & Hkey)|[(key & lst & i & -> & Hin & Hkey & Hi)|
    (id & prev & cur & lst & -> & Hin & Hid & Hprev & Hbad)]].
  - left. exists key. split_and!; [done|by right|done].
  - right; left. exists key, lst, i. split_and!; [done|by right|done|done].
  - right; right. exists id, prev, cur, lst. split_and!; [done|by right|done| |].
    + rewrite Hlook in Hprev. destruct Hprev as [Hp|(lst' & ? & ?)].
      * case_decide; [|by left]. simplify_eq. right. exists l. split; [by left|done].
      * right. exists lst'. split; [by right|done].
    + rewrite reservedIDsOf_cons. intros [Hnd' Hfresh']. apply Hbad.
      apply NoDup_app in Hnd' as (_ & Hdisj & Hnd'). split; [done|].
      intros id' Hin'. rewrite Hlook. rewrite decide_False.
      * apply Hfresh', elem_of_app. by right.
      * intros Hl. by eapply Hdisj.
Qed.

Lemma foldl_recordEntry_fresh byShard entries :
  NoDup (byShard.*1 ++ entries.*1) →
  foldl recordEntry byShard entries = byShard ++ entries.
Proof.
  revert byShard. induction entries as [|[k l] entries IH]; intros byShard Hnd; simpl.
  { by rewrite app_nil_r. }
  assert (Hset : ∀ m, k ∉ m.*1 → setEntry k l m = m ++ [(k, l)]).
  { induction m as [|[k' l'] m IHm]; simpl; [done|]. intros Hk.
    rewrite decide_False by set_solver. f_equal. apply IHm. set_solver. }
  unfold recordEntry at 2. simpl. rewrite Hset.
  - rewrite IH; [by rewrite <-(assoc_L _ _)|].
    rewrite fmap_app. simpl. by rewrite <-(assoc_L _ _).
  - apply NoDup_app in Hnd as (_ & Hd & _). intros Hk. apply (Hd k Hk). by left.
Qed.


Lemma filter_all {A} (P : A → Prop) `{∀ x, Decision (P x)} (l : list A) :
  (∀ x, x ∈ l → P x) → filter P l = l.
Proof.
  induction l as [|x l IH]; intros Hall; [done|].
  rewrite filter_cons_True by (apply Hall; left).
  f_equal. apply IH. intros y Hy. apply Hall. by right.
Qed.


Lemma applyReservations_inr ids rm n info :
  applyReservations ids rm n = inr info →
  Forall (inRange n) rm ∧ NoDup (reservedIDsOf rm) ∧
  UnreservedIDs info = filter (λ id, id ∉ reservedIDsOf rm) ids ∧
  IDsByShard info = foldl recordEntry [] rm ∧
  CountsByShard info = foldl recordCount ∅ rm.
Proof.
  unfold applyReservations. case_decide as Hlen.
  { apply nil_length_inv in Hlen as ->. intros [= <-]. simpl.
    split_and!; [constructor|constructor| |done|done].
    symmetry. apply filter_all. intros x _. apply not_elem_of_nil. }
  destruct (reserveLoop rm n ∅ [] ∅) as [e|[[seen byShard] counts]] eqn:Hloop; [done|].
  apply reserveLoop_inr in Hloop as (Hrange & Hnd & _ & Hdom & -> & ->).
  intros [= <-]. simpl. split_and!; [done|done| |done|done].
  assert (Hmem : ∀ id, id ∉ dom seen ↔ id ∉ reservedIDsOf rm).
  { intros id. rewrite Hdom. set_solver. }
  case_decide as Hsize.
  - by apply list_filter_iff.
  - symmetry. apply filter_all. intros id _. apply Hmem.
    assert (size seen = 0%nat) as ->%map_size_empty_inv by lia.
    rewrite dom_empty_L. apply not_elem_of_empty.
Qed.

Lemma applyReservations_inl ids rm n e :
  applyReservations ids rm n = inl e →
  (∃ key, key ∈ rm.*1 ∧ Sscanf_shard key = None) ∨
  indexOutOfRange rm n ∨ ¬ NoDup (reservedIDsOf rm).
Proof.
  unfold applyReservations. case_decide as Hlen; [done|].
  destruct (reserveLoop rm n ∅ [] ∅) as [e'|[[seen byShard] counts]] eqn:Hloop; [|done].
  intros _. apply reserveLoop_inl in Hloop
    as [(key & -> & Hin & Hkey)|[(key & lst & i & -> & Hin & Hkey & Hi)|
        (id & prev & cur & lst & -> & _ & _ & _ & Hbad)]].
  - left. by exists key.
  - right; left. by exists key, lst, i.
  - right; right. intros Hnd. apply Hbad. split; [done|]. intros ? _. apply lookup_empty.
Qed.

Lemma applyReservations_total ids rm n :
  Forall (inRange n) rm → NoDup (reservedIDsOf rm) →
  ∃ info, applyReservations ids rm n = inr info.
Proof.
  intros Hrange Hnd.
  destruct (applyReservations ids rm n) as [e|info] eqn:Hr; [|by exists info].
  rewrite Forall_forall in Hrange.
  apply applyReservations_inl in Hr as [(key & Hin & Hkey)|[(key & lst & i & Hin & Hkey & Hi)|?]];
    [| |done].
  - apply list_elem_of_fmap in Hin as (e' & -> & He').
    destruct (Hrange _ He') as (i & Hi & _). congruence.
  - destruct (Hrange _ Hin) as (i' & Hi' & ?). simpl in Hi'. simplify_eq. lia.
Qed.

(** ** Reservation lists without repeats *)







(** A repeat inside one list, which the third hypothesis leaves out: the
    map is refused with the shard named twice, although every index is in
    range and no identifier is in the lists of two shards. *)
Lemma applyReservations_repeat_in_one_shard :
  let rm := [("shard_0", Slice ["5"; "5"])] in
  applyReservations ["5"; "6"] rm 1
    = inl (DuplicateReservation "5" "shard_0" "shard_0") ∧
  ¬ indexOutOfRange rm 1 ∧ ¬ reservedInTwoShards rm.
Proof.
  split_and!.
  - vm_compute. reflexivity.
  - intros (key & lst & idx & Hin & Hkey & Hidx).
    apply list_elem_of_singleton in Hin. simplify_eq.
    vm_compute in Hkey. simplify_eq. lia.
  - intros (id & k1 & l1 & k2 & l2 & Hne & H1 & H2 & _).
    apply list_elem_of_singleton in H1, H2. congruence.
Qed.

(** ** The validator only appends *)

Lemma validateAuth_app cfg issues :
  validateAuth cfg issues = issues ++ validateAuth cfg [].
Proof.
  unfold validateAuth. repeat case_decide; simpl; by rewrite ?app_nil_r, <-?(assoc_L (++)).
Qed.

Lemma validateSource_app cfg issues :
  validateSource cfg issues = issues ++ validateSource cfg [].
Proof.
  unfold validateSource.
  destruct (bool_decide (SourceType cfg ∈ validSources)),
    (bool_decide (SourceType cfg = "computer_group_membership")),
    (bool_decide (SourceType cfg = "mobile_device_group_membership")),
    (bool_decide (GroupID cfg = "")), (numericIDRe (GroupID cfg));
    repeat case_decide; simpl; by rewrite ?app_nil_r, <-?(assoc_L (++)).
Qed.

Lemma validateOutput_app cfg issues :
  validateOutput cfg issues = issues ++ validateOutput cfg [].
Proof.
  unfold validateOutput. repeat case_decide; simpl; by rewrite ?app_nil_r.
Qed.

Lemma negativePercentages_app i percentages issues :
  negativePercentages i percentages issues
    = issues ++ negativePercentages i percentages [].
Proof.
  revert i issues. induction percentages as [|p rest IH]; intros i issues; simpl.
  { by rewrite app_nil_r. }
  rewrite IH. rewrite (IH _ (if decide (p < 0) then _ else _)).
  case_decide; simpl; by rewrite ?app_nil_r, <-?(assoc_L (++)).
Qed.

Lemma invalidSizes_app len i sizes issues :
  invalidSizes len i sizes issues = issues ++ invalidSizes len i sizes [].
Proof.
  revert i issues. induction sizes as [|s rest IH]; intros i issues; simpl.
  { by rewrite app_nil_r. }
  rewrite IH. rewrite (IH _ (if decide (s = -1 ∧ _) then _ else _)).
  repeat case_decide; simpl; by rewrite ?app_nil_r, <-?(assoc_L (++)).
Qed.

Lemma notNumeric_app report i ids issues :
  notNumeric report i ids issues = issues ++ notNumeric report i ids [].
Proof.
  revert i issues. induction ids as [|id rest IH]; intros i issues; simpl.
  { by rewrite app_nil_r. }
  rewrite IH. rewrite (IH _ (if negb _ then _ else _)).
  destruct (numericIDRe id); simpl; by rewrite ?app_nil_r, <-?(assoc_L (++)).
Qed.

Lemma reservedFormats_app entries issues :
  reservedFormats entries issues = issues ++ reservedFormats entries [].
Proof.
  revert issues. induction entries as [|[key ids] rest IH]; intros issues; simpl.
  { by rewrite app_nil_r. }
  rewrite IH. rewrite (IH (notNumeric _ _ _ (if negb _ then _ else _))).
  rewrite notNumeric_app. rewrite (notNumeric_app _ _ _ (if negb _ then _ else _)).
  destruct (shardNameRe key); simpl; by rewrite ?app_nil_r, <-?(assoc_L (++)).
Qed.

Lemma validateIDFormats_app cfg issues :
  validateIDFormats cfg issues = issues ++ validateIDFormats cfg [].
Proof.
  unfold validateIDFormats. rewrite reservedFormats_app, notNumeric_app.
  rewrite (reservedFormats_app _ (notNumeric _ _ _ [])).
  by rewrite <-?(assoc_L (++)).
Qed.

Lemma conflictsIn_app excludeSet shardName ids seen issues :
  conflictsIn excludeSet shardName ids seen issues
    = ((conflictsIn excludeSet shardName ids seen []).1,
       issues ++ (conflictsIn excludeSet shardName ids seen []).2).
Proof.
  revert seen issues. induction ids as [|id rest IH]; intros seen issues; simpl.
  { by rewrite app_nil_r. }
  destruct (seen !! id) as [prev|]; rewrite IH;
    [rewrite (IH _ (_ ++ [ReservedInMultipleShards _ _ _]))
    |rewrite (IH _ (if decide _ then _ else _))];
    case_decide; simpl; by rewrite ?app_nil_r, <-?(assoc_L (++)).
Qed.

Lemma conflicts_app excludeSet entries seen issues :
  conflicts excludeSet entries seen issues
    = ((conflicts excludeSet entries seen []).1,
       issues ++ (conflicts excludeSet entries seen []).2).
Proof.
  revert seen issues. induction entries as [|[shardName ids] rest IH]; intros seen issues; simpl.
  { by rewrite app_nil_r. }
  rewrite conflictsIn_app. rewrite (conflictsIn_app _ _ _ _ []).
  destruct (conflictsIn excludeSet shardName (elems ids) seen []) as [seen' found]. simpl.
  rewrite IH. rewrite (IH _ found). simpl. by rewrite <-?(assoc_L (++)).
Qed.

Lemma validateIDConflicts_app cfg issues :
  validateIDConflicts cfg issues = issues ++ validateIDConflicts cfg [].
Proof.
  unfold validateIDConflicts. case_decide; [by rewrite app_nil_r|].
  by rewrite conflicts_app.
Qed.

Lemma validateShardingParameters_app cfg issues :
  validateShardingParameters cfg issues = issues ++ validateShardingParameters cfg [].
Proof.
  unfold validateShardingParameters.
  destruct (bool_decide (ShardCount cfg > 0)), (bool_decide (0 < length (ShardPercentages cfg))%nat),
    (bool_decide (0 < length (ShardSizes cfg))%nat),
    (bool_decide (Strategy cfg ∈ validStrategies)), (bool_decide (ShardCount cfg < 1));
    cbn -[negativePercentages invalidSizes sumPercentages];
    repeat case_decide;
    rewrite ?(invalidSizes_app _ _ _ (_ ++ _)), ?(invalidSizes_app _ _ _ (if decide _ then _ else _)) ;
    rewrite ?(negativePercentages_app _ _ (_ ++ _));
    rewrite ?(negativePercentages_app _ _ issues);
    rewrite ?(invalidSizes_app _ _ _ issues);
    rewrite ?(negativePercentages_app _ _ (_ :: _)), ?(invalidSizes_app _ _ _ (_ :: _));
    simpl; by rewrite ?app_nil_r, <-?(assoc_L (++)).
Qed.

(** ** What [validateIDConflicts] lets through *)





Lemma withoutConflicts_lists cfg :
  withoutConflicts cfg → Forall (λ e, NoDup (elems e.2)) (ReservedIDs cfg).
Proof.
  intros [Hnd _]. induction (ReservedIDs cfg) as [|[k l] rm IH]; [constructor|].
  rewrite reservedIDsOf_cons in Hnd. apply NoDup_app in Hnd as (? & _ & ?).
  constructor; [done|by apply IH].
Qed.

(** ** Identifiers and their numeric order *)

Lemma isDigit_digitVal c : isDigit c = true → 0 ≤ digitVal c ≤ 9.
Proof.
  unfold isDigit, digitVal. intros [H1 H2]%andb_prop.
  apply Nat.leb_le in H1, H2. lia.
Qed.

Lemma digitsValue_nonneg s acc :
  allDigits s = true → 0 ≤ acc → acc ≤ digitsValue acc s.
Proof.
  revert acc. induction s as [|c s IH]; intros acc Hs Hacc; simpl in *; [lia|].
  apply andb_prop in Hs as [Hc Hs]. apply isDigit_digitVal in Hc.
  etrans; [|apply IH; [done|lia]]. lia.
Qed.

Lemma Atoi_numeric s : numericIDRe s = true → 0 ≤ Atoi s ≤ maxInt64.
Proof.
  unfold numericIDRe, Atoi, ParseInt. destruct s as [|c s]; [done|]. intros Hs.
  assert (Hc : isDigit c = true) by (simpl in Hs; by apply andb_prop in Hs as [? _]).
  assert (Ascii.eqb c "+" = false ∧ Ascii.eqb c "-" = false) as [-> ->].
  { split; apply Ascii.eqb_neq; intros ->; done. }
  cbn [orb negb andb]. rewrite Hs.
  pose proof (digitsValue_nonneg (String c s) 0 Hs ltac:(done)) as Hv.
  destruct (2 ^ 63 <=? _) eqn:Hle; cbn [fst]; unfold maxInt64; [lia|].
  apply Z.leb_gt in Hle. lia.
Qed.

Lemma cmpIDs_numeric a b :
  numericIDRe a = true → numericIDRe b = true →
  (cmpIDs a b < 0 ↔ Atoi a < Atoi b).
Proof.
  intros Ha%Atoi_numeric Hb%Atoi_numeric. unfold cmpIDs.
  rewrite wrap64_small; unfold minInt64, maxInt64 in *; lia.
Qed.

Section Sequencer.
Context `{StdLib}.

Lemma sortIDsNumerically_perm ids : sortIDsNumerically ids ≡ₚ ids.
Proof. apply SortFunc_perm. Qed.

Lemma sortIDsNumerically_sorted ids :
  Forall (λ s, numericIDRe s = true) ids →
  StronglySorted (λ a b, Atoi a ≤ Atoi b) (sortIDsNumerically ids).
Proof.
  intros Hids. apply SortFunc_sorted. rewrite Forall_forall in Hids.
  intros a b Ha Hb. apply cmpIDs_numeric; auto.
Qed.


(** A list already in ascending order is left as it is. *)
Lemma sortIDsNumerically_sorted_id l :
  numericIDs l → StronglySorted (λ a b, Atoi a ≤ Atoi b) l →
  sortIDsNumerically l = l.
Proof.
  intros [Hnum Hinj] Hs.
  apply (StronglySorted_unique_strong (λ a b, Atoi a ≤ Atoi b)); [|by apply sortIDsNumerically_sorted|done|apply sortIDsNumerically_perm].
  intros a b Ha Hb Hab Hba. rewrite sortIDsNumerically_perm in Ha.
  apply Hinj; [done..|lia].
Qed.

Lemma insert_Permutation (l : list string) i x y :
  l !! i = Some x → <[i:=y]> l ≡ₚ y :: delete i l.
Proof.
  revert i. induction l as [|a l IH]; intros [|i] Hi; simplify_eq/=; [done|].
  rewrite (IH i) by done. apply Permutation_swap.
Qed.

Lemma swap_perm s i j : swap s i j ≡ₚ s.
Proof.
  unfold swap. destruct (s !! i) as [x|] eqn:Hi; [|done].
  destruct (s !! j) as [y|] eqn:Hj; [|done].
  destruct (decide (i = j)) as [->|Hne].
  { simplify_eq. rewrite list_insert_insert_eq. by rewrite list_insert_id. }
  assert (Hj' : <[i:=y]> s !! j = Some y) by (by rewrite list_lookup_insert_ne).
  etrans; [apply (insert_Permutation _ j y x Hj')|].
  etrans; [|symmetry; apply (delete_Permutation s i x Hi)].
  apply Permutation_skip.
  apply (Permutation_cons_inv (a := y)).
  etrans; [symmetry; apply (delete_Permutation _ j y Hj')|].
  by apply (insert_Permutation s i x y).
Qed.

Lemma fisherYates_perm i rng shuffled : fisherYates i rng shuffled ≡ₚ shuffled.
Proof.
  revert rng shuffled. induction i as [|i IH]; intros rng shuffled; simpl; [done|].
  destruct (Intn rng _) as [j rng']. by rewrite IH, swap_perm.
Qed.

Lemma shuffleIDs_perm ids seed : shuffleIDs ids seed ≡ₚ ids.
Proof. apply fisherYates_perm. Qed.

Lemma sortAndShuffleIfSeed_perm ids seed : sortAndShuffleIfSeed ids seed ≡ₚ ids.
Proof.
  unfold sortAndShuffleIfSeed. case_decide; [done|].
  by rewrite shuffleIDs_perm, sortIDsNumerically_perm.
Qed.

Lemma sortAndShuffleIfSeed_length ids seed :
  length (sortAndShuffleIfSeed ids seed) = length ids.
Proof. by rewrite sortAndShuffleIfSeed_perm. Qed.


End Sequencer.

(** ** Rendezvous selection *)

Lemma Uint64_nonneg b : 0 ≤ Uint64 b.
Proof.
  unfold Uint64. generalize (take 8 b). intros l.
  cut (∀ acc, 0 ≤ acc → 0 ≤ foldl (λ acc x, acc * 256 + Z.of_N (Byte.to_N x)) acc l).
  { intros Hc. by apply Hc. }
  induction l as [|x l IH]; intros acc Hacc; simpl; [done|]. apply IH. lia.
Qed.

Section Rendezvous.
Context `{StdLib}.

Lemma weight_nonneg id shardIdx seed : 0 ≤ weight id shardIdx seed.
Proof. apply Uint64_nonneg. Qed.

(** The scan either keeps its starting pair, no weight exceeding the
    starting one, or stops at the first of the highest weights. *)
Lemma foldl_considerShard id seed l best :
  let r := foldl (considerShard id seed) best l in
  (r = best ∧ ∀ s, s ∈ l → weight id s seed ≤ best.1) ∨
  (∃ l1 l2, l = l1 ++ r.2 :: l2 ∧ r.1 = weight id r.2 seed ∧ best.1 < r.1 ∧
     (∀ s, s ∈ l1 → weight id s seed < r.1) ∧
     (∀ s, s ∈ l2 → weight id s seed ≤ r.1)).
Proof.
  revert best. induction l as [|s l IH]; intros best; simpl.
  { left. split; [done|]. intros s Hs. by apply elem_of_nil in Hs. }
  destruct (decide (weight id s seed > best.1)) as [Hw|Hw].
  1: assert (considerShard id seed best s = (weight id s seed, s)) as ->
    by (unfold considerShard; by rewrite decide_True).
  2: assert (considerShard id seed best s = best) as ->
    by (unfold considerShard; by rewrite decide_False).
  - right. destruct (IH (weight id s seed, s)) as [[Hr Hle]|(l1 & l2 & Hl & Hr1 & Hlt & H1 & H2)].
    + exists [], l. rewrite Hr. simpl in *. split_and!; [done|done|lia| |done].
      intros s' Hs'. by apply elem_of_nil in Hs'.
    + exists (s :: l1), l2. simpl in *. split_and!; [by rewrite Hl at 1|done|lia| |done].
      intros s' [->|Hs']%elem_of_cons; [lia|by apply H1].
  - destruct (IH best) as [[Hr Hle]|(l1 & l2 & Hl & Hr1 & Hlt & H1 & H2)].
    + left. split; [done|]. intros s' [->|Hs']%elem_of_cons; [lia|by apply Hle].
    + right. exists (s :: l1), l2. split_and!; [by rewrite Hl at 1|done|done| |done].
      intros s' [->|Hs']%elem_of_cons; [lia|by apply H1].
Qed.

(** The selected shard is the first index of highest weight. *)
Lemma selectShard_spec id seed shardCount :
  1 ≤ shardCount →
  let k := selectShard id seed shardCount in
  0 ≤ k < shardCount ∧
  (∀ s, 0 ≤ s < shardCount → weight id s seed ≤ weight id k seed) ∧
  (∀ s, 0 ≤ s < k → weight id s seed < weight id k seed).
Proof.
  intros Hn. cbv zeta. unfold selectShard.
  pose proof (foldl_considerShard id seed (seqZ 0 shardCount) (0, 0)) as Hf.
  cbv zeta in Hf.
  set (r := foldl (considerShard id seed) (0, 0) (seqZ 0 shardCount)) in *.
  destruct Hf as [[Hr Hle]|(l1 & l2 & Hl & Hr1 & Hlt & H1 & H2)]; set (k := r.2) in *.
  - subst k. rewrite Hr. simpl in *. split_and!; [lia|lia| |lia].
    intros s Hs. pose proof (weight_nonneg id 0 seed).
    etrans; [apply Hle|done]. apply elem_of_seqZ. lia.
  - assert (Hk : k = Z.of_nat (length l1)).
    { assert (Hlk : seqZ 0 shardCount !! length l1 = Some k).
      { rewrite Hl. by apply list_lookup_middle. }
      apply lookup_seqZ in Hlk. lia. }
    assert (Hpos : ∀ s, 0 ≤ s < shardCount → s ∈ l1 ∨ s = k ∨ (k < s ∧ s ∈ l2)).
    { intros s Hs.
      assert (Hls : seqZ 0 shardCount !! Z.to_nat s = Some s) by (apply lookup_seqZ; lia).
      rewrite Hl in Hls.
      destruct (decide (Z.to_nat s < length l1)%nat) as [Hlt1|Hge].
      { left. rewrite lookup_app_l in Hls by done. by eapply list_elem_of_lookup_2. }
      rewrite lookup_app_r in Hls by lia.
      destruct (Z.to_nat s - length l1)%nat as [|j] eqn:Hj; simpl in Hls.
      { right; left. congruence. }
      right; right. split; [lia|]. by eapply list_elem_of_lookup_2. }
    assert (k ∈ seqZ 0 shardCount) as Hin by (rewrite Hl; set_solver).
    apply elem_of_seqZ in Hin.
    split_and!; [lia|lia| |].
    + intros s Hs. rewrite <-Hr1.
      destruct (Hpos s Hs) as [?%H1|[->|[_ ?%H2]]]; [lia| |done]. rewrite Hr1. lia.
    + intros s Hs. rewrite <-Hr1.
      destruct (Hpos s ltac:(lia)) as [?%H1|[->|[? _]]]; [done|lia|lia].
Qed.

(** Adding a shard: one more round of the scan. *)
Lemma selectShard_succ id seed n :
  0 ≤ n →
  selectShard id seed (n + 1) =
    (considerShard id seed (foldl (considerShard id seed) (0, 0) (seqZ 0 n)) n).2.
Proof.
  intros Hn. unfold selectShard.
  replace (n + 1) with (Z.of_nat (S (Z.to_nat n))) by lia.
  rewrite seqZ_S, foldl_app. simpl. by rewrite !Z2Nat.id by done.
Qed.

Lemma selectShard_one id seed : selectShard id seed 1 = 0.
Proof. pose proof (selectShard_spec id seed 1 ltac:(done)) as [? _]. lia. Qed.

End Rendezvous.

(** ** Buckets that stay nil, reservations that are dropped, exclusions
    that come back, sizes that wrap *)

Section Evaluations.
Context `{StdLib}.

Lemma sortIDsNumerically_singleton x : sortIDsNumerically [x] = [x].
Proof. apply Permutation_singleton_r, sortIDsNumerically_perm. Qed.

Lemma sortIDsNumerically_nil : sortIDsNumerically [] = [].
Proof. apply Permutation_nil_r, sortIDsNumerically_perm. Qed.

(** C10, at the failing inputs. With one identifier and two shards the
    round-robin strategy returns a nil second bucket; the percentage strategy
    leaves a bucket nil when its share is empty; the percentage and size
    strategies return only nil buckets for an empty pool. *)
Theorem strategies_return_nil_buckets :
  shardByRoundRobin ["1"] 2 "" None = Some [Slice ["1"]; nilSlice] ∧
  shardByPercentage ["1"] [0; 100] "" None = Some [nilSlice; Slice ["1"]] ∧
  shardByPercentage [] [50; 50] "" None = Some [nilSlice; nilSlice] ∧
  shardBySize [] [1; -1] "" None = Some [nilSlice; nilSlice].
Proof.
  split_and!.
  - unfold shardByRoundRobin, finishShards. simpl.
    by rewrite sortIDsNumerically_singleton.
  - unfold shardByPercentage, finishShards. simpl.
    by rewrite sortIDsNumerically_singleton.
  - done.
  - done.
Qed.

(** C3, at the failing input. When every identifier of the pool is
    reserved, the percentage and size strategies return before merging the
    reservations, so the pinned identifier is in no bucket; round-robin and
    rendezvous do put it in bucket 0. *)
Theorem reservation_lost_on_empty_pool :
  applyReservations ["7"] [("shard_0", Slice ["7"])] 1 = inr pinned7 ∧
  shardByPercentage ["7"] [100] "" (Some pinned7) = Some [nilSlice] ∧
  shardBySize ["7"] [-1] "" (Some pinned7) = Some [nilSlice] ∧
  shardByRoundRobin ["7"] 1 "" (Some pinned7) = Some [Slice ["7"]] ∧
  shardByRendezvous ["7"] 1 "" (Some pinned7) = Some [Slice ["7"]].
Proof.
  split_and!.
  - vm_compute. reflexivity.
  - done.
  - done.
  - unfold shardByRoundRobin, finishShards. simpl.
    by rewrite sortIDsNumerically_singleton.
  - unfold shardByRendezvous, finishShards. simpl.
    by rewrite sortIDsNumerically_singleton.
Qed.

Lemma numericIDs_1_2 : numericIDs ["1"; "2"].
Proof.
  split; [by repeat constructor|].
  intros a b Ha Hb. set_unfold. destruct Ha as [->|[->|[]]], Hb as [->|[->|[]]];
    vm_compute; congruence.
Qed.

(** The four strategies on an identifier that is excluded and also
    reserved: "1" is removed from the pool, yet the reservation is recorded
    and every strategy puts "1" in bucket 0. *)
Theorem excluded_and_reserved_is_output :
  applyExclusions ["1"; "2"] ["1"] = ["2"] ∧
  applyReservations ["2"] [("shard_0", Slice ["1"])] 1 = inr pinned1 ∧
  shardByRoundRobin ["2"] 1 "" (Some pinned1) = Some [Slice ["1"; "2"]] ∧
  shardByRendezvous ["2"] 1 "" (Some pinned1) = Some [Slice ["1"; "2"]] ∧
  shardByPercentage ["2"] [100] "" (Some pinned1) = Some [Slice ["1"; "2"]] ∧
  shardBySize ["2"] [-1] "" (Some pinned1) = Some [Slice ["1"; "2"]].
Proof.
  assert (Hsort : sortIDsNumerically ["1"; "2"] = ["1"; "2"]).
  { apply sortIDsNumerically_sorted_id; [apply numericIDs_1_2|].
    repeat constructor. vm_compute. congruence. }
  split_and!.
  - vm_compute. reflexivity.
  - vm_compute. reflexivity.
  - unfold shardByRoundRobin, finishShards. simpl. by rewrite Hsort.
  - unfold shardByRendezvous. rewrite decide_False by lia.
    cbn [unreservedOf UnreservedIDs pinned1 rendezvous]. rewrite selectShard_one.
    unfold finishShards. simpl. by rewrite Hsort.
  - unfold shardByPercentage, finishShards. simpl. by rewrite Hsort.
  - unfold shardBySize, finishShards. simpl. by rewrite Hsort.
Qed.

Lemma numericIDs_2_3 : numericIDs ["2"; "3"].
Proof.
  split; [by repeat constructor|].
  intros a b Ha Hb. set_unfold. destruct Ha as [->|[->|[]]], Hb as [->|[->|[]]];
    vm_compute; congruence.
Qed.

(** C7, at the failing input. The sizes [1, MaxInt64, -1] pass the
    validator. For the second shard [currentIndex + shardSize] is
    1 + MaxInt64, which wraps to a negative number: the test against the
    length of the pool does not clamp the size, and the slice expression
    [distributionIDs[1 : 1 + shardSize]] panics; so does every run. A size
    that is only larger than the pool is clamped, as the claim says. *)
Theorem shardBySize_huge_size_panics :
  validateShardingParameters hugeSize [] = [] ∧
  shardBySize ["1"; "2"; "3"] [1; 9223372036854775807; -1] "" None = None ∧
  (∀ out, runShard hugeSize ["1"; "2"; "3"] out → out = Panicked) ∧
  shardBySize ["1"; "2"; "3"] [1; 500; -1] "" None
    = Some [Slice ["1"]; Slice ["2"; "3"]; Slice []].
Proof.
  split_and!.
  - vm_compute. reflexivity.
  - vm_compute. reflexivity.
  - intros out Hrun.
    destruct Hrun as [visit e Hperm He|visit info visit' Hperm Hr Hperm'];
      simpl in Hperm; apply Permutation_nil_r in Hperm as ->.
    + vm_compute in He. discriminate.
    + vm_compute in Hr. injection Hr as <-. simpl in Hperm'.
      apply Permutation_nil_r in Hperm' as ->. vm_compute. reflexivity.
  - assert (Hsort : sortIDsNumerically ["2"; "3"] = ["2"; "3"]).
    { apply sortIDsNumerically_sorted_id; [apply numericIDs_2_3|].
      repeat constructor. vm_compute. congruence. }
    unfold shardBySize, finishShards. simpl.
    by rewrite sortIDsNumerically_singleton, sortIDsNumerically_nil, Hsort.
Qed.

End Evaluations.

(** ** Buckets *)

Lemma elems_append s xs : elems (append s xs) = elems s ++ xs.
Proof. destruct xs; simpl; [by rewrite app_nil_r|done]. Qed.

Lemma append_append s xs ys : append (append s xs) ys = append s (xs ++ ys).
Proof.
  destruct xs as [|x xs]; [done|]. destruct ys as [|y ys]; simpl.
  - by rewrite app_nil_r.
  - by rewrite <-(assoc_L _ _).
Qed.

Lemma allElems_insert shards i s s' :
  shards !! i = Some s →
  allElems (<[i:=s']> shards) ≡ₚ elems s' ++ allElems (delete i shards).
Proof.
  revert i. induction shards as [|a shards IH]; intros [|i] Hi; simplify_eq/=; [done|].
  unfold allElems in *. csimpl. rewrite (IH i) by done.
  rewrite !(assoc_L _ _). f_equiv. apply Permutation_app_comm.
Qed.

Lemma allElems_delete shards i s :
  shards !! i = Some s → allElems shards ≡ₚ elems s ++ allElems (delete i shards).
Proof.
  intros Hi. rewrite <-(list_insert_id shards i s Hi) at 1.
  by apply (allElems_insert shards i s s).
Qed.

(** Replacing a bucket by one that holds [xs] more adds [xs] to the whole. *)
Lemma allElems_insert_more shards i s s' xs :
  shards !! i = Some s → elems s' ≡ₚ xs ++ elems s →
  allElems (<[i:=s']> shards) ≡ₚ xs ++ allElems shards.
Proof.
  intros Hi Hs'. rewrite (allElems_insert _ _ _ _ Hi), (allElems_delete _ _ _ Hi), Hs'.
  by rewrite <-(assoc_L _ _).
Qed.

Lemma allElems_alter_append shards i xs :
  (i < length shards)%nat →
  allElems (alter (λ s, append s xs) i shards) ≡ₚ allElems shards ++ xs.
Proof.
  intros Hi. destruct (lookup_lt_is_Some_2 shards i Hi) as [s Hs].
  assert (alter (λ s, append s xs) i shards = <[i:=append s xs]> shards) as ->.
  { apply list_eq. intros j. destruct (decide (i = j)) as [->|Hne].
    - rewrite list_lookup_alter_eq, list_lookup_insert_eq by done. by rewrite Hs.
    - by rewrite list_lookup_alter_ne, list_lookup_insert_ne. }
  rewrite (allElems_insert_more _ _ s _ xs); [apply Permutation_app_comm|done|].
  rewrite elems_append. apply Permutation_app_comm.
Qed.

Lemma allElems_replicate_nil n : allElems (replicate n nilSlice) = [].
Proof. induction n; [done|]. unfold allElems in *. by csimpl. Qed.

Lemma allElems_replicate_empty n : allElems (replicate n (Slice [])) = [].
Proof. induction n; [done|]. unfold allElems in *. by csimpl. Qed.

Lemma mergeReserved_length entries shards shards' :
  mergeReserved entries shards = Some shards' → length shards' = length shards.
Proof.
  revert shards. induction entries as [|[k l] entries IH]; intros shards Hm; simpl in Hm.
  { by simplify_eq. }
  case_decide; [|done]. destruct (shards !! _) eqn:Hs; [|done]. simpl in Hm.
  apply IH in Hm. by rewrite length_insert in Hm.
Qed.

Lemma mergeReserved_allElems entries shards shards' :
  mergeReserved entries shards = Some shards' →
  allElems shards' ≡ₚ reservedIDsOf entries ++ allElems shards.
Proof.
  revert shards. induction entries as [|[k l] entries IH]; intros shards Hm; simpl in Hm.
  { by simplify_eq. }
  case_decide; [|done]. destruct (shards !! _) as [s|] eqn:Hs; [|done]. simpl in Hm.
  apply IH in Hm. rewrite Hm, reservedIDsOf_cons.
  rewrite (allElems_insert_more _ _ s _ (elems l)); [|done|by rewrite elems_append].
  rewrite !(assoc_L _ _). f_equiv. apply Permutation_app_comm.
Qed.

(** Bucket by bucket: the merged bucket is the reserved identifiers of
    that index followed by what the strategy put there. *)
Lemma mergeReserved_lookup entries shards shards' i s :
  mergeReserved entries shards = Some shards' → shards !! i = Some s →
  ∃ s', shards' !! i = Some s' ∧ elems s' ≡ₚ reservedAt entries i ++ elems s.
Proof.
  revert shards s. induction entries as [|[k l] entries IH]; intros shards s Hm Hi;
    simpl in Hm.
  { simplify_eq. by exists s. }
  case_decide as Hidx; [|done]. destruct (shards !! _) as [s0|] eqn:Hs; [|done].
  simpl in Hm. unfold reservedAt. destruct (decide (Z.to_nat (bucketOf (k, l)) = i)) as [Hki|Hki].
  - rewrite filter_cons_True by done. csimpl. fold (reservedAt entries i).
    unfold bucketOf in Hki. simpl in Hki. rewrite Hki in *. simplify_eq.
    destruct (IH _ (append l (elems s)) Hm) as (s' & Hs' & Hperm).
    { apply list_lookup_insert_eq. by eapply lookup_lt_Some. }
    exists s'. split; [done|]. rewrite Hperm, elems_append.
    rewrite !(assoc_L _ _). f_equiv. apply Permutation_app_comm.
  - rewrite filter_cons_False by done. fold (reservedAt entries i).
    apply (IH _ s Hm). rewrite list_lookup_insert_ne; [done|].
    unfold bucketOf in Hki. by simpl in Hki.
Qed.

Lemma mergeReserved_is_Some entries shards :
  Forall (λ e, 0 ≤ bucketOf e < Z.of_nat (length shards)) entries →
  is_Some (mergeReserved entries shards).
Proof.
  revert shards. induction entries as [|[k l] entries IH]; intros shards Hall; simpl.
  { by eexists. }
  apply Forall_cons in Hall as [Hk Hall]. unfold bucketOf in Hk. simpl in Hk.
  rewrite decide_True by lia.
  destruct (lookup_lt_is_Some_2 shards (Z.to_nat (default 0 (Sscanf_shard k))))
    as [s Hs]; [lia|].
  rewrite Hs. simpl. apply IH. by rewrite length_insert.
Qed.

Lemma Uint64_range b : 0 ≤ Uint64 b < 2 ^ 64.
Proof.
  split; [apply Uint64_nonneg|]. unfold Uint64.
  assert (Hlen : (length (take 8 b) ≤ 8)%nat) by (rewrite length_take; lia).
  revert Hlen. generalize (take 8 b). intros l Hlen.
  assert (Hbound : ∀ acc, 0 ≤ acc →
    foldl (λ acc x, acc * 256 + Z.of_N (Byte.to_N x)) acc l
      < (acc + 1) * 256 ^ Z.of_nat (length l)).
  { clear Hlen. induction l as [|x l IH]; intros acc Hacc; simpl length; simpl foldl.
    { rewrite Z.pow_0_r. lia. }
    pose proof (Byte.to_N_bounded x) as Hx.
    eapply Z.lt_le_trans; [apply IH; lia|].
    rewrite Nat2Z.inj_succ, Z.pow_succ_r by lia.
    assert (0 < 256 ^ Z.of_nat (length l)) by (apply Z.pow_pos_nonneg; lia).
    nia. }
  eapply Z.lt_le_trans; [by apply Hbound|].
  rewrite Z.mul_1_l. change (2 ^ 64) with (256 ^ 8).
  apply Z.pow_le_mono_r; lia.
Qed.

(** ** What the strategies do with the pool *)

Section Strategies.
Context `{StdLib}.

Lemma elems_sortSlice s : elems (sortSlice s) ≡ₚ elems s.
Proof. destruct s; simpl; [done|apply sortIDsNumerically_perm]. Qed.

Lemma allElems_sortSlice shards : allElems (sortSlice <$> shards) ≡ₚ allElems shards.
Proof.
  unfold allElems. induction shards as [|s shards IH]; [done|]. csimpl.
  by rewrite IH, elems_sortSlice.
Qed.

Lemma finishShards_Some reservations shards shards' :
  finishShards reservations shards = Some shards' →
  ∃ merged, mergeReserved (entriesOf reservations) shards = Some merged ∧
    shards' = sortSlice <$> merged.
Proof.
  unfold finishShards. destruct reservations as [r|]; simpl.
  - destruct (mergeReserved _ _) as [merged|]; [|done]. intros [= <-]. by exists merged.
  - intros [= <-]. by exists shards.
Qed.

Lemma finishShards_is_Some reservations shards :
  fits (Z.of_nat (length shards)) reservations →
  is_Some (finishShards reservations shards).
Proof.
  intros Hfit. apply mergeReserved_is_Some in Hfit as [merged Hm].
  unfold finishShards. destruct reservations as [r|]; simpl in *; [|by eexists].
  rewrite Hm. by eexists.
Qed.

Lemma finishShards_length reservations shards shards' :
  finishShards reservations shards = Some shards' → length shards' = length shards.
Proof.
  intros (merged & Hm & ->)%finishShards_Some.
  rewrite length_fmap. by eapply mergeReserved_length.
Qed.

Lemma finishShards_allElems reservations shards shards' :
  finishShards reservations shards = Some shards' →
  allElems shards' ≡ₚ reservedIDsOf (entriesOf reservations) ++ allElems shards.
Proof.
  intros (merged & Hm & ->)%finishShards_Some.
  rewrite allElems_sortSlice. by apply mergeReserved_allElems.
Qed.

Lemma finishShards_lookup reservations shards shards' i s :
  finishShards reservations shards = Some shards' → shards !! i = Some s →
  ∃ s', shards' !! i = Some s' ∧
    elems s' ≡ₚ reservedAt (entriesOf reservations) i ++ elems s.
Proof.
  intros (merged & Hm & ->)%finishShards_Some Hi.
  destruct (mergeReserved_lookup _ _ _ _ _ Hm Hi) as (s' & Hs' & Hperm).
  exists (sortSlice s'). rewrite list_lookup_fmap, Hs'. split; [done|].
  by rewrite elems_sortSlice.
Qed.

(** *** Round-robin *)

Lemma roundRobin_length n i ids shards :
  length (roundRobin n i ids shards) = length shards.
Proof.
  revert i shards. induction ids as [|id ids IH]; intros i shards; cbn [roundRobin]; [done|].
  by rewrite IH, length_alter.
Qed.

Lemma roundRobin_allElems n i ids shards :
  0 < n → 0 ≤ i → length shards = Z.to_nat n →
  allElems (roundRobin n i ids shards) ≡ₚ allElems shards ++ ids.
Proof.
  intros Hn. revert i shards. induction ids as [|id ids IH]; intros i shards Hi Hlen; cbn [roundRobin].
  { by rewrite app_nil_r. }
  rewrite IH; [|lia|by rewrite length_alter].
  rewrite allElems_alter_append.
  - by rewrite <-(assoc_L _ _).
  - rewrite Hlen. pose proof (Z.rem_bound_pos i n Hi Hn). lia.
Qed.

(** *** Rendezvous *)

Lemma rendezvous_length n seed ids shards :
  length (rendezvous n seed ids shards) = length shards.
Proof.
  revert shards. induction ids as [|id ids IH]; intros shards; cbn [rendezvous]; [done|].
  by rewrite IH, length_alter.
Qed.

(** Bucket [i] receives, in pool order, the identifiers that select [i]. *)
Lemma rendezvous_lookup n seed ids shards i s :
  shards !! i = Some s →
  rendezvous n seed ids shards !! i =
    Some (append s (filter (λ id, Z.to_nat (selectShard id seed n) = i) ids)).
Proof.
  revert shards s. induction ids as [|id ids IH]; intros shards s Hi; cbn [rendezvous]; [done|].
  destruct (decide (Z.to_nat (selectShard id seed n) = i)) as [Hsel|Hsel].
  - rewrite filter_cons_True by done.
    rewrite (IH _ (append s [id])).
    + by rewrite append_append.
    + by rewrite Hsel, list_lookup_alter_eq, Hi.
  - rewrite filter_cons_False by done. apply IH.
    by rewrite list_lookup_alter_ne.
Qed.

Lemma rendezvous_allElems n seed ids shards :
  1 ≤ n → length shards = Z.to_nat n →
  allElems (rendezvous n seed ids shards) ≡ₚ allElems shards ++ ids.
Proof.
  intros Hn. revert shards. induction ids as [|id ids IH]; intros shards Hlen; cbn [rendezvous].
  { by rewrite app_nil_r. }
  rewrite IH by (by rewrite length_alter).
  rewrite allElems_alter_append.
  - by rewrite <-(assoc_L _ _).
  - rewrite Hlen. pose proof (selectShard_spec id seed n Hn) as [? _]. lia.
Qed.

Lemma highestWeight_selectShard id seed n :
  1 ≤ n →
  (foldl (considerShard id seed) (0, 0) (seqZ 0 n)).1 = weight id (selectShard id seed n) seed.
Proof.
  intros Hn. unfold selectShard.
  destruct (foldl_considerShard id seed (seqZ 0 n) (0, 0))
    as [[Hr Hle]|(l1 & l2 & Hl & Hr1 & _)]; [|done].
  rewrite Hr. simpl in *. pose proof (weight_nonneg id 0 seed).
  assert (weight id 0 seed ≤ 0); [|lia]. apply Hle, elem_of_seqZ. lia.
Qed.

Lemma selectShard_add id seed N :
  1 ≤ N →
  selectShard id seed (N + 1) =
    if decide (weight id N seed > weight id (selectShard id seed N) seed) then N
    else selectShard id seed N.
Proof.
  intros HN. rewrite selectShard_succ by lia. unfold considerShard at 1.
  rewrite highestWeight_selectShard by done. by case_decide.
Qed.

(** C4. [shardByRendezvous] puts every identifier of the distributable pool
    in the bucket whose weight is highest, the weight being the first 8
    bytes, big-endian, of the SHA-256 digest of "<id>:shard_<s>:<seed>"; of
    several shards of highest weight the first one in the scan s = 0, 1, ...
    is kept; the seed, empty or not, is part of the hashed string. *)
Theorem shardByRendezvous_highest_weight ids shardCount seed reservations :
  let n := if decide (shardCount ≤ 0) then 1 else shardCount in
  fits n reservations →
  (∀ id s, weight id s seed =
      Uint64 (Sum256 (list_byte_of_string (id +:+ ":shard_" +:+ itoa s +:+ ":" +:+ seed))) ∧
    0 ≤ weight id s seed < 2 ^ 64) ∧
  ∃ shards, shardByRendezvous ids shardCount seed reservations = Some shards ∧
    ∀ id, id ∈ unreservedOf ids reservations →
      ∃ k bucket,
        0 ≤ k < n ∧
        (∀ s, 0 ≤ s < n → weight id s seed ≤ weight id k seed) ∧
        (∀ s, 0 ≤ s < k → weight id s seed < weight id k seed) ∧
        shards !! Z.to_nat k = Some bucket ∧ id ∈ elems bucket.
Proof.
  intros n Hfit. split.
  { intros id s. split; [done|apply Uint64_range]. }
  assert (Hn : 1 ≤ n) by (unfold n; case_decide; lia).
  unfold shardByRendezvous. fold n.
  set (pool := unreservedOf ids reservations).
  set (shards0 := rendezvous n seed pool (replicate (Z.to_nat n) (Slice []))).
  assert (Hlen : length shards0 = Z.to_nat n).
  { unfold shards0. by rewrite rendezvous_length, length_replicate. }
  destruct (finishShards_is_Some reservations shards0) as [shards Hfin].
  { rewrite Hlen. by rewrite Z2Nat.id by lia. }
  exists shards. split; [done|]. intros id Hid.
  pose proof (selectShard_spec id seed n Hn) as (Hk & Hmax & Hfirst).
  set (k := selectShard id seed n) in *.
  assert (Hb : shards0 !! Z.to_nat k
    = Some (append (Slice []) (filter (λ id', Z.to_nat (selectShard id' seed n) = Z.to_nat k) pool))).
  { apply rendezvous_lookup, lookup_replicate_2. lia. }
  destruct (finishShards_lookup _ _ _ _ _ Hfin Hb) as (bucket & Hbucket & Hperm).
  exists k, bucket. split_and!; [lia|lia|done|done|done|].
  rewrite Hperm, elems_append. apply elem_of_app; right. apply elem_of_app; right.
  by apply list_elem_of_filter.
Qed.

(** C5. Going from N to N+1 shards, an identifier moves only when its
    weight for the new shard N is strictly above the weight of the shard it
    had, and then it moves to shard N; otherwise it stays where it was. *)
Theorem shardByRendezvous_minimal_movement ids N seed :
  1 ≤ N →
  ∃ shards shards',
    shardByRendezvous ids N seed None = Some shards ∧
    shardByRendezvous ids (N + 1) seed None = Some shards' ∧
    ∀ id, id ∈ ids →
      ∃ k k' bucket bucket',
        k = selectShard id seed N ∧ k' = selectShard id seed (N + 1) ∧
        shards !! Z.to_nat k = Some bucket ∧ id ∈ elems bucket ∧
        shards' !! Z.to_nat k' = Some bucket' ∧ id ∈ elems bucket' ∧
        (k' ≠ k → weight id N seed > weight id k seed ∧ k' = N) ∧
        (weight id N seed > weight id k seed → k' = N) ∧
        (weight id N seed ≤ weight id k seed → k' = k).
Proof.
  intros HN.
  assert (Hbucket : ∀ n, 1 ≤ n → ∃ shards,
    shardByRendezvous ids n seed None = Some shards ∧
    ∀ id, id ∈ ids → ∃ bucket,
      shards !! Z.to_nat (selectShard id seed n) = Some bucket ∧ id ∈ elems bucket).
  { intros n Hn. unfold shardByRendezvous. rewrite decide_False by lia. simpl.
    eexists. split; [done|]. intros id Hid.
    pose proof (selectShard_spec id seed n Hn) as (Hk & _).
    rewrite list_lookup_fmap.
    erewrite rendezvous_lookup; [|apply lookup_replicate_2; lia]. simpl.
    eexists. split; [done|]. rewrite elems_sortSlice, elems_append.
    apply list_elem_of_filter. done. }
  destruct (Hbucket N HN) as (shards & Hs & Hin).
  destruct (Hbucket (N + 1) ltac:(lia)) as (shards' & Hs' & Hin').
  exists shards, shards'. split_and!; [done|done|]. intros id Hid.
  destruct (Hin id Hid) as (bucket & Hb & Hidb).
  destruct (Hin' id Hid) as (bucket' & Hb' & Hidb').
  exists (selectShard id seed N), (selectShard id seed (N + 1)), bucket, bucket'.
  split_and!; try done.
  all: rewrite selectShard_add by done; case_decide; intros; try done; lia.
Qed.

End Strategies.

(** ** The shares add up *)

Lemma clampShare_bounds target remaining :
  0 ≤ remaining → 0 ≤ clampShare target remaining ≤ remaining.
Proof. unfold clampShare. lia. Qed.

Lemma length_sharesFrom target n i params consumed :
  length (sharesFrom target n i params consumed) = length params.
Proof.
  revert i consumed. induction params as [|p params IH]; intros i consumed; simpl; [done|].
  by rewrite IH.
Qed.

Lemma sharesFrom_bounds target n i params consumed :
  0 ≤ consumed ≤ n →
  Forall (λ share, 0 ≤ share) (sharesFrom target n i params consumed) ∧
  consumed + sumZ (sharesFrom target n i params consumed) ≤ n.
Proof.
  revert i consumed. induction params as [|p params IH]; intros i consumed Hc; simpl.
  { split; [constructor|lia]. }
  pose proof (clampShare_bounds (target i p (n - consumed)) (n - consumed) ltac:(lia)) as Hs.
  destruct (IH (i + 1) (consumed + clampShare (target i p (n - consumed)) (n - consumed)))
    as [Hall Hsum]; [lia|].
  split; [constructor; [lia|done]|lia].
Qed.

(** Nothing is left over when the last shard of a percentage list is reached. *)
Lemma sharesFrom_percentage_total T count n i params consumed :
  0 ≤ consumed ≤ n → params ≠ [] →
  consumed + sumZ (sharesFrom (percentageTarget T count (i + Z.of_nat (length params) - 1))
                     n i params consumed) = n.
Proof.
  revert i consumed. induction params as [|p params IH]; intros i consumed Hc Hne; [done|].
  cbn [sharesFrom sumZ foldr length].
  set (share := clampShare _ _).
  assert (Hs : 0 ≤ share ≤ n - consumed) by (apply clampShare_bounds; lia).
  destruct params as [|p' params].
  { simpl. unfold share, percentageTarget, clampShare.
    rewrite decide_True by (simpl; lia). lia. }
  specialize (IH (i + 1) (consumed + share) ltac:(lia) ltac:(done)).
  replace (i + 1 + Z.of_nat (length (p' :: params)) - 1)
    with (i + Z.of_nat (S (length (p' :: params))) - 1) in IH by lia.
  unfold sumZ in *. lia.
Qed.

(** Nothing is left over when the size list ends with -1. *)
Lemma sharesFrom_size_total count n i params consumed :
  0 ≤ consumed ≤ n → last params = Some (-1) →
  consumed + sumZ (sharesFrom (sizeTarget count) n i params consumed) = n.
Proof.
  revert i consumed. induction params as [|p params IH]; intros i consumed Hc Hlast; [done|].
  cbn [sharesFrom sumZ foldr].
  set (share := clampShare _ _).
  assert (Hs : 0 ≤ share ≤ n - consumed) by (apply clampShare_bounds; lia).
  destruct params as [|p' params].
  { simpl in *. simplify_eq. unfold share, sizeTarget, clampShare.
    rewrite decide_True by done. lia. }
  specialize (IH (i + 1) (consumed + share) ltac:(lia) Hlast).
  unfold sumZ in *. lia.
Qed.

(** With an empty remainder every share is zero. *)
Lemma sharesFrom_exhausted target n i params :
  Forall (λ share, share = 0) (sharesFrom target n i params n).
Proof.
  revert i. induction params as [|p params IH]; intros i; simpl; [constructor|].
  assert (clampShare (target i p (n - n)) (n - n) = 0) as ->.
  { unfold clampShare. lia. }
  constructor; [done|]. replace (n + 0) with n by lia. apply IH.
Qed.

Lemma length_carved empty dist shs cur : length (carved empty dist shs cur) = length shs.
Proof.
  revert cur. induction shs as [|share shs IH]; intros cur; simpl; [done|]. by rewrite IH.
Qed.

(** The pieces are consecutive: together they are one stretch of the pool. *)
Lemma allElems_carved empty dist shs cur :
  elems empty = [] → 0 ≤ cur → Forall (λ share, 0 ≤ share) shs →
  allElems (carved empty dist shs cur)
    = take (Z.to_nat (sumZ shs)) (drop (Z.to_nat cur) dist).
Proof.
  intros Hempty. revert cur. induction shs as [|share shs IH]; intros cur Hcur Hall.
  { done. }
  apply Forall_cons in Hall as [Hshare Hall].
  assert (0 ≤ sumZ shs).
  { clear -Hall. induction Hall; simpl; lia. }
  unfold allElems in *. cbn [carved]. csimpl.
  rewrite IH by (done || lia).
  change (sumZ (share :: shs)) with (share + sumZ shs).
  replace (Z.to_nat (share + sumZ shs)) with (Z.to_nat share + Z.to_nat (sumZ shs))%nat by lia.
  replace (Z.to_nat (cur + share)) with (Z.to_nat cur + Z.to_nat share)%nat by lia.
  rewrite <-take_take_drop, drop_drop. f_equal.
  case_decide; [done|]. rewrite Hempty.
  by replace (Z.to_nat share) with 0%nat by lia.
Qed.

(** Each piece has the length of its share. *)
Lemma carved_lookup empty dist shs cur j c :
  elems empty = [] → 0 ≤ cur → Forall (λ share, 0 ≤ share) shs →
  cur + sumZ shs ≤ Z.of_nat (length dist) →
  carved empty dist shs cur !! j = Some c →
  ∃ share, shs !! j = Some share ∧ Z.of_nat (length (elems c)) = share ∧
    elems c ⊆ dist.
Proof.
  intros Hempty. revert cur j.
  induction shs as [|share shs IH]; intros cur j Hcur Hall Hsum Hc; [done|].
  apply Forall_cons in Hall as [Hshare Hall].
  assert (0 ≤ sumZ shs).
  { clear -Hall. induction Hall; simpl; lia. }
  change (sumZ (share :: shs)) with (share + sumZ shs) in Hsum.
  destruct j as [|j]; simpl in Hc.
  - exists share. split; [done|]. simplify_eq. case_decide.
    + simpl. rewrite length_take, length_drop. split; [lia|].
      etrans; [apply subseteq_take|apply subseteq_drop].
    + rewrite Hempty. simpl. split; [lia|]. set_solver.
  - apply (IH (cur + share) j); [lia|done|lia|done].
Qed.

(** ** The carving loops compute the shares *)

Lemma insert_at_end (done : list slice) i s x rest :
  Z.of_nat (length done) = i →
  <[Z.to_nat i := s]> (done ++ x :: rest) = (done ++ [s]) ++ rest.
Proof.
  intros <-. rewrite Nat2Z.id, insert_app_r_alt by done.
  rewrite Nat.sub_diag. simpl. by rewrite <-(assoc_L _ _).
Qed.

Lemma floatPercent_floor T p :
  0 ≤ T → 0 ≤ p → floatPercent T p = T * p / 100.
Proof. intros HT Hp. unfold floatPercent. apply Z.quot_div_nonneg; lia. Qed.

Lemma subslice_share dist cur share :
  0 ≤ cur → 0 < share → cur + share ≤ Z.of_nat (length dist) →
  subslice dist cur (cur + share)
    = Some (Slice (take (Z.to_nat share) (drop (Z.to_nat cur) dist))).
Proof.
  intros Hcur Hshare Hlen. unfold subslice. rewrite decide_True by lia.
  by replace (cur + share - cur) with share by lia.
Qed.

Lemma carveByPercentage_carved T sc res unres dist done i pcts cur :
  let n := Z.of_nat (length unres) in
  length dist = length unres →
  n < 2 ^ 62 → 0 ≤ cur ≤ n →
  Z.of_nat (length done) = i →
  0 ≤ T →
  Forall (λ p, 0 ≤ p ∧ T * p < 2 ^ 53) pcts →
  (∀ j, 0 ≤ reservedCount res j < 2 ^ 62) →
  carveByPercentage T sc res unres dist i pcts cur
      (done ++ replicate (length pcts) nilSlice)
    = Some (done ++ carved nilSlice dist
              (sharesFrom (percentageTarget T (reservedCount res) (sc - 1)) n i pcts cur)
              cur).
Proof.
  intros n Hdist Hn Hcur Hi HT Hpcts Hcount.
  revert done i cur Hcur Hi. induction Hpcts as [|p pcts [Hp Hexact] _ IH];
    intros done i cur Hcur Hi.
  { simpl. by rewrite app_nil_r. }
  cbn [carveByPercentage sharesFrom carved length replicate]. fold n.
  set (target := percentageTarget T (reservedCount res) (sc - 1) i p (n - cur)).
  assert (Hfloor : 0 ≤ T * p / 100 < 2 ^ 53).
  { split; [apply Z.div_pos; lia|]. apply Z.div_lt_upper_bound; lia. }
  specialize (Hcount i).
  assert (Htarget : (if decide (i = sc - 1) then n - cur
                     else wrap64 (floatPercent T p - reservedCount res i)) = target).
  { unfold target, percentageTarget. destruct (decide (i = sc - 1)); [done|].
    rewrite floatPercent_floor by done.
    apply wrap64_small. unfold minInt64, maxInt64. lia. }
  rewrite Htarget.
  assert (Hrange : - 2 ^ 62 < target < 2 ^ 62).
  { unfold target, percentageTarget. destruct (decide (i = sc - 1)); lia. }
  rewrite (wrap64_small (cur + target)) by (unfold minInt64, maxInt64; lia).
  set (size := if decide (cur + target > n) then n - cur else target).
  assert (Hsize : size = Z.min target (n - cur)).
  { unfold size. destruct (decide (cur + target > n)); lia. }
  assert (Hshare : clampShare target (n - cur) = Z.max 0 size) by (by rewrite Hsize).
  rewrite Hshare.
  destruct (decide (size > 0)) as [Hpos|Hpos].
  - rewrite Z.max_r by lia.
    rewrite (wrap64_small (cur + size)) by (unfold minInt64, maxInt64; lia).
    rewrite subslice_share by lia. cbn [mbind option_bind].
    rewrite insert_at_end by done.
    rewrite (IH (done ++ [_]) (i + 1) (cur + size)); [|lia|].
    + rewrite decide_True by lia. by rewrite <-(assoc_L _ _).
    + rewrite length_app. simpl. lia.
  - rewrite Z.max_l by lia.
    replace (done ++ nilSlice :: replicate (length pcts) nilSlice)
      with ((done ++ [nilSlice]) ++ replicate (length pcts) nilSlice)
      by (by rewrite <-(assoc_L _ _)).
    rewrite (IH (done ++ [nilSlice]) (i + 1) cur); [|lia|].
    + rewrite decide_False by lia. rewrite Z.add_0_r. by rewrite <-(assoc_L _ _).
    + rewrite length_app. simpl. lia.
Qed.

Lemma carveBySize_carved res unres dist done i sizes cur :
  let n := Z.of_nat (length unres) in
  length dist = length unres →
  n < 2 ^ 62 → 0 ≤ cur ≤ n →
  Z.of_nat (length done) = i →
  Forall (λ s, - 2 ^ 62 < s < 2 ^ 62) sizes →
  (∀ j, 0 ≤ reservedCount res j < 2 ^ 62) →
  carveBySize res unres dist i sizes cur (done ++ replicate (length sizes) nilSlice)
    = Some (done ++ carved (Slice []) dist
              (sharesFrom (sizeTarget (reservedCount res)) n i sizes cur) cur).
Proof.
  intros n Hdist Hn Hcur Hi Hsizes Hcount.
  revert done i cur Hcur Hi. induction Hsizes as [|s sizes Hs _ IH];
    intros done i cur Hcur Hi.
  { simpl. by rewrite app_nil_r. }
  cbn [carveBySize sharesFrom carved length replicate]. fold n.
  set (target := sizeTarget (reservedCount res) i s (n - cur)).
  specialize (Hcount i).
  set (size := if decide (s = -1) then n - cur
               else let shardSize := wrap64 (s - reservedCount res i) in
                    if decide (wrap64 (cur + shardSize) > n) then n - cur else shardSize).
  assert (Hsize : size = Z.min target (n - cur)).
  { unfold size, target, sizeTarget. destruct (decide (s = -1)); [lia|]. cbv zeta.
    rewrite (wrap64_small (s - _)) by (unfold minInt64, maxInt64; lia).
    rewrite (wrap64_small (cur + _)) by (unfold minInt64, maxInt64; lia).
    destruct (decide (cur + (s - reservedCount res i) > n)); lia. }
  assert (Hshare : clampShare target (n - cur) = Z.max 0 size) by (by rewrite Hsize).
  rewrite Hshare. fold size.
  destruct (decide (size > 0 ∧ cur < n)) as [Hpos|Hpos].
  - rewrite Z.max_r by lia.
    rewrite (wrap64_small (cur + size)) by (unfold minInt64, maxInt64; lia).
    rewrite subslice_share by lia. cbn [mbind option_bind].
    rewrite insert_at_end by done.
    rewrite (IH (done ++ [_]) (i + 1) (cur + size)); [|lia|].
    + rewrite decide_True by lia. by rewrite <-(assoc_L _ _).
    + rewrite length_app. simpl. lia.
  - assert (size ≤ 0) by lia. rewrite Z.max_l by lia.
    rewrite insert_at_end by done.
    rewrite (IH (done ++ [_]) (i + 1) cur); [|lia|].
    + rewrite decide_False by lia. rewrite Z.add_0_r. by rewrite <-(assoc_L _ _).
    + rewrite length_app. simpl. lia.
Qed.

Lemma filter_none {A} (P : A → Prop) `{∀ x, Decision (P x)} (l : list A) :
  (∀ x, x ∈ l → ¬ P x) → filter P l = [].
Proof.
  induction l as [|x l IH]; intros Hall; [done|].
  rewrite filter_cons_False by (apply Hall; left).
  apply IH. intros y Hy. apply Hall. by right.
Qed.

Lemma reservedAt_subseteq entries i : reservedAt entries i ⊆ reservedIDsOf entries.
Proof.
  intros id. unfold reservedAt, reservedIDsOf. rewrite !list_elem_of_bind.
  intros (e & Hid & He%list_elem_of_filter). exists e. tauto.
Qed.

Lemma sumZ_nonneg shs : Forall (λ share, 0 ≤ share) shs → 0 ≤ sumZ shs.
Proof. induction 1; simpl; lia. Qed.

Section Carving.
Context `{StdLib}.

(** What the tail of a strategy makes of carved buckets: bucket [i] is the
    reserved identifiers of index [i] together with a piece of the pool as
    long as the share of [i]. *)
Lemma finishShards_carved reservations dist empty shs :
  elems empty = [] →
  Forall (λ share, 0 ≤ share) shs →
  sumZ shs ≤ Z.of_nat (length dist) →
  fits (Z.of_nat (length shs)) reservations →
  ∃ shards,
    finishShards reservations (carved empty dist shs 0) = Some shards ∧
    length shards = length shs ∧
    allElems shards ≡ₚ
      reservedIDsOf (entriesOf reservations) ++ take (Z.to_nat (sumZ shs)) dist ∧
    ∀ i share, shs !! i = Some share →
      ∃ bucket piece, shards !! i = Some bucket ∧
        elems bucket ≡ₚ reservedAt (entriesOf reservations) i ++ piece ∧
        piece ⊆ dist ∧ Z.of_nat (length piece) = share.
Proof.
  intros Hempty Hshs Hsum Hfit.
  destruct (finishShards_is_Some reservations (carved empty dist shs 0)) as [shards Hfin].
  { by rewrite length_carved. }
  exists shards. split_and!; [done| | |].
  - apply finishShards_length in Hfin. by rewrite length_carved in Hfin.
  - rewrite (finishShards_allElems _ _ _ Hfin).
    by rewrite allElems_carved by done.
  - intros i share Hi.
    destruct (lookup_lt_is_Some_2 (carved empty dist shs 0) i) as [c Hc].
    { rewrite length_carved. by eapply lookup_lt_Some. }
    destruct (carved_lookup empty dist shs 0 i c) as (share' & Hi' & Hlen & Hsub);
      [done..|lia|done|].
    destruct (finishShards_lookup _ _ _ _ _ Hfin Hc) as (bucket & Hb & Hperm).
    exists bucket, (elems c). split_and!; [done|done|done|congruence].
Qed.

(** A bucket with no reserved identifier of the pool holds as many pool
    identifiers as its piece is long. *)
Lemma count_of_pool unres dist (bucket reserved piece : list string) :
  dist ≡ₚ unres → bucket ≡ₚ reserved ++ piece →
  (∀ id, id ∈ reserved → id ∉ unres) → piece ⊆ dist →
  length (filter (λ id, id ∈ unres) bucket) = length piece.
Proof.
  intros Hdist Hperm Hres Hsub.
  rewrite Hperm, filter_app, length_app.
  rewrite (filter_none _ reserved) by done.
  rewrite (filter_all _ piece); [done|].
  intros id Hid. rewrite <-Hdist. by apply Hsub.
Qed.

End Carving.

Section Shares.
Context `{StdLib}.

Lemma shardByPercentage_buckets ids percentages seed reservations :
  let unres := unreservedOf ids reservations in
  Z.of_nat (length ids) < 2 ^ 46 →
  Z.of_nat (length unres) < 2 ^ 62 →
  Forall (λ p, 0 ≤ p ≤ 100) percentages →
  (∀ j, 0 ≤ reservedCount reservations j < 2 ^ 62) →
  fits (Z.of_nat (length percentages)) reservations →
  unres ≠ [] →
  ∃ shards,
    shardByPercentage ids percentages seed reservations = Some shards ∧
    length shards = length percentages ∧
    allElems shards ≡ₚ reservedIDsOf (entriesOf reservations) ++
      take (Z.to_nat (sumZ (percentageShares ids percentages reservations))) 
        (sortAndShuffleIfSeed unres seed) ∧
    ∀ i share, percentageShares ids percentages reservations !! i = Some share →
      ∃ bucket piece, shards !! i = Some bucket ∧
        elems bucket ≡ₚ reservedAt (entriesOf reservations) i ++ piece ∧
        piece ⊆ sortAndShuffleIfSeed unres seed ∧ Z.of_nat (length piece) = share.
Proof.
  intros unres HT Hn Hpcts Hcount Hfit Hne.
  unfold shardByPercentage. fold unres.
  rewrite decide_False by (by intros ?%nil_length_inv).
  pose proof (carveByPercentage_carved (Z.of_nat (length ids))
    (Z.of_nat (length percentages)) reservations unres
    (sortAndShuffleIfSeed unres seed) [] 0 percentages 0) as Hcarve.
  cbv zeta in Hcarve. simpl app in Hcarve. rewrite Hcarve; clear Hcarve;
    [|apply sortAndShuffleIfSeed_length|done|lia|done|lia| |done].
  2:{ eapply Forall_impl; [exact Hpcts|]. simpl. intros p Hp. split; [lia|].
      assert (Z.of_nat (length ids) * p ≤ 2 ^ 46 * 100) by nia. lia. }
  cbn [mbind option_bind].
  change (sharesFrom _ _ 0 percentages 0)
    with (percentageShares ids percentages reservations).
  pose proof (sharesFrom_bounds
    (percentageTarget (Z.of_nat (length ids)) (reservedCount reservations)
       (Z.of_nat (length percentages) - 1))
    (Z.of_nat (length unres)) 0 percentages 0 ltac:(lia)) as [Hpos Hsum].
  change (sharesFrom _ _ 0 percentages 0)
    with (percentageShares ids percentages reservations) in Hpos, Hsum.
  destruct (finishShards_carved reservations (sortAndShuffleIfSeed unres seed) nilSlice
    (percentageShares ids percentages reservations)) as (shards & Hfin & Hlen & Hall & Hlook);
    [done|done| | |].
  - rewrite sortAndShuffleIfSeed_length. lia.
  - unfold percentageShares. by rewrite length_sharesFrom.
  - exists shards. split_and!; [done| |done|done].
    rewrite Hlen. unfold percentageShares. by rewrite length_sharesFrom.
Qed.

Lemma shardBySize_buckets ids sizes seed reservations :
  let unres := unreservedOf ids reservations in
  Z.of_nat (length unres) < 2 ^ 62 →
  Forall (λ s, - 2 ^ 62 < s < 2 ^ 62) sizes →
  (∀ j, 0 ≤ reservedCount reservations j < 2 ^ 62) →
  fits (Z.of_nat (length sizes)) reservations →
  unres ≠ [] →
  ∃ shards,
    shardBySize ids sizes seed reservations = Some shards ∧
    length shards = length sizes ∧
    allElems shards ≡ₚ reservedIDsOf (entriesOf reservations) ++
      take (Z.to_nat (sumZ (sizeShares ids sizes reservations)))
        (sortAndShuffleIfSeed unres seed) ∧
    ∀ i share, sizeShares ids sizes reservations !! i = Some share →
      ∃ bucket piece, shards !! i = Some bucket ∧
        elems bucket ≡ₚ reservedAt (entriesOf reservations) i ++ piece ∧
        piece ⊆ sortAndShuffleIfSeed unres seed ∧ Z.of_nat (length piece) = share.
Proof.
  intros unres Hn Hsizes Hcount Hfit Hne.
  unfold shardBySize. fold unres.
  rewrite decide_False by (by intros ?%nil_length_inv).
  pose proof (carveBySize_carved reservations unres
    (sortAndShuffleIfSeed unres seed) [] 0 sizes 0) as Hcarve.
  cbv zeta in Hcarve. simpl app in Hcarve. rewrite Hcarve; clear Hcarve;
    [|apply sortAndShuffleIfSeed_length|done|lia|done|done|done].
  cbn [mbind option_bind].
  change (sharesFrom _ _ 0 sizes 0) with (sizeShares ids sizes reservations).
  pose proof (sharesFrom_bounds (sizeTarget (reservedCount reservations))
    (Z.of_nat (length unres)) 0 sizes 0 ltac:(lia)) as [Hpos Hsum].
  change (sharesFrom _ _ 0 sizes 0) with (sizeShares ids sizes reservations) in Hpos, Hsum.
  destruct (finishShards_carved reservations (sortAndShuffleIfSeed unres seed) (Slice [])
    (sizeShares ids sizes reservations)) as (shards & Hfin & Hlen & Hall & Hlook);
    [done|done| | |].
  - rewrite sortAndShuffleIfSeed_length. lia.
  - unfold sizeShares. by rewrite length_sharesFrom.
  - exists shards. split_and!; [done| |done|done].
    rewrite Hlen. unfold sizeShares. by rewrite length_sharesFrom.
Qed.

End Shares.

(** The share of shard [i], spelled out: its target, clamped to what the
    earlier shards have left. *)
Lemma sharesFrom_lookup target n i0 params consumed0 i p :
  params !! i = Some p →
  let shares := sharesFrom target n i0 params consumed0 in
  let consumed := consumed0 + sumZ (take i shares) in
  shares !! i
    = Some (clampShare (target (i0 + Z.of_nat i) p (n - consumed)) (n - consumed)).
Proof.
  revert i0 consumed0 i. induction params as [|q params IH]; intros i0 consumed0 i Hp; [done|].
  destruct i as [|i]; simpl in Hp |- *.
  { simplify_eq. by rewrite !Z.add_0_r. }
  rewrite (IH (i0 + 1) _ i Hp). cbv zeta.
  replace (i0 + 1 + Z.of_nat i) with (i0 + Z.pos (Pos.of_succ_nat i)) by lia.
  by rewrite (assoc_L Z.add).
Qed.

Section SharesTheorems.
Context `{StdLib}.

Lemma three_buckets (shards : list slice) (s0 s1 s2 : Z) :
  length shards = 3%nat →
  (∀ i share, [s0; s1; s2] !! i = Some share →
     ∃ bucket piece, shards !! i = Some bucket ∧ elems bucket ≡ₚ [] ++ piece ∧
       Z.of_nat (length piece) = share) →
  (λ b, length (elems b)) <$> shards = [Z.to_nat s0; Z.to_nat s1; Z.to_nat s2].
Proof.
  intros Hlen Hlook.
  destruct shards as [|b0 [|b1 [|b2 [|]]]]; simplify_eq/=.
  destruct (Hlook 0%nat s0 eq_refl) as (? & p0 & [= <-] & Hp0 & <-).
  destruct (Hlook 1%nat s1 eq_refl) as (? & p1 & [= <-] & Hp1 & <-).
  destruct (Hlook 2%nat s2 eq_refl) as (? & p2 & [= <-] & Hp2 & <-).
  by rewrite Hp0, Hp1, Hp2, !Nat2Z.id.
Qed.

(** C6. In [shardByPercentage] shard [i], the last apart, receives
    floor(T * percentages[i] / 100) - reservedCount[i] identifiers of the
    distributable pool, T being the size of the exclusion-filtered pool,
    clamped to what remains of the pool (and to zero); the last shard
    receives all that remains. With 1000 identifiers, percentages
    [5, 20, 75] and no reservations the buckets have 50, 200 and 750
    identifiers, whatever the seed. *)
Theorem shardByPercentage_shares :
  (∀ ids percentages seed reservations,
     let unres := unreservedOf ids reservations in
     Z.of_nat (length ids) < 2 ^ 46 →
     Z.of_nat (length unres) < 2 ^ 62 →
     Forall (λ p, 0 ≤ p ≤ 100) percentages →
     (∀ j, 0 ≤ reservedCount reservations j < 2 ^ 62) →
     fits (Z.of_nat (length percentages)) reservations →
     (∀ id, id ∈ reservedIDsOf (entriesOf reservations) → id ∉ unres) →
     ∃ shards,
       shardByPercentage ids percentages seed reservations = Some shards ∧
       length shards = length percentages ∧
       ∀ i share, percentageShares ids percentages reservations !! i = Some share →
         ∃ bucket, shards !! i = Some bucket ∧
           Z.of_nat (length (filter (λ id, id ∈ unres) (elems bucket))) = share) ∧
  (∀ ids seed, length ids = 1000%nat →
     ∃ shards,
       shardByPercentage ids [5; 20; 75] seed None = Some shards ∧
       (λ b, length (elems b)) <$> shards = [50; 200; 750]%nat).
Proof.
  split.
  - intros ids percentages seed reservations unres HT Hn Hpcts Hcount Hfit Hdisj.
    destruct (decide (unres = [])) as [Hnil|Hne].
    + exists (replicate (length percentages) nilSlice). split_and!.
      * unfold shardByPercentage. fold unres. by rewrite Hnil, decide_True.
      * by rewrite length_replicate.
      * intros i share Hi. exists nilSlice.
        assert (share = 0) as ->.
        { unfold percentageShares in Hi. fold unres in Hi. rewrite Hnil in Hi.
          pose proof (sharesFrom_exhausted
            (percentageTarget (Z.of_nat (length ids)) (reservedCount reservations)
               (Z.of_nat (length percentages) - 1)) 0 0 percentages) as Hzero.
          rewrite Forall_forall in Hzero. apply Hzero.
          by eapply list_elem_of_lookup_2. }
        split; [|done]. apply lookup_replicate_2.
        apply lookup_lt_Some in Hi. unfold percentageShares in Hi.
        by rewrite length_sharesFrom in Hi.
    + destruct (shardByPercentage_buckets ids percentages seed reservations)
        as (shards & Hrun & Hlen & _ & Hlook); [done..|].
      exists shards. split_and!; [done|done|].
      intros i share Hi. destruct (Hlook i share Hi) as (bucket & piece & Hb & Hperm & Hsub & <-).
      exists bucket. split; [done|]. f_equal.
      eapply count_of_pool; [apply sortAndShuffleIfSeed_perm|done| |done].
      intros id Hid. apply Hdisj. by eapply reservedAt_subseteq.
  - intros ids seed Hlen.
    destruct (shardByPercentage_buckets ids [5; 20; 75] seed None)
      as (shards & Hrun & Hlen' & _ & Hlook).
    + simpl. rewrite Hlen. lia.
    + simpl. rewrite Hlen. lia.
    + repeat constructor; lia.
    + intros j. simpl. lia.
    + constructor.
    + simpl. intros ->. done.
    + exists shards. split; [done|].
      assert (Hshares : percentageShares ids [5; 20; 75] None = [50; 200; 750]).
      { unfold percentageShares. simpl unreservedOf. rewrite Hlen. vm_compute. reflexivity. }
      rewrite Hshares in Hlook.
      apply (three_buckets shards 50 200 750 Hlen').
      intros i share Hi. destruct (Hlook i share Hi) as (bucket & piece & ? & ? & _ & ?).
      by exists bucket, piece.
Qed.

(** Sizes below 2^62, where no sum wraps. In [shardBySize] a shard with an
    explicit size [s] receives [s - reservedCount[i]] identifiers of the
    distributable pool, clamped to what remains of the pool (and to zero),
    which is not an error; an entry
    -1 receives all that remains. With sizes [100, 500, -1] and no
    reservations, 700 identifiers give buckets of 100, 500 and 100, and 50
    identifiers give buckets of 50, 0 and 0. *)
Theorem shardBySize_shares :
  (∀ ids sizes seed reservations,
     let unres := unreservedOf ids reservations in
     Z.of_nat (length unres) < 2 ^ 62 →
     Forall (λ s, - 2 ^ 62 < s < 2 ^ 62) sizes →
     (∀ j, 0 ≤ reservedCount reservations j < 2 ^ 62) →
     fits (Z.of_nat (length sizes)) reservations →
     (∀ id, id ∈ reservedIDsOf (entriesOf reservations) → id ∉ unres) →
     ∃ shards,
       shardBySize ids sizes seed reservations = Some shards ∧
       length shards = length sizes ∧
       ∀ i share, sizeShares ids sizes reservations !! i = Some share →
         ∃ bucket, shards !! i = Some bucket ∧
           Z.of_nat (length (filter (λ id, id ∈ unres) (elems bucket))) = share) ∧
  (∀ ids seed, length ids = 700%nat →
     ∃ shards,
       shardBySize ids [100; 500; -1] seed None = Some shards ∧
       (λ b, length (elems b)) <$> shards = [100; 500; 100]%nat) ∧
  (∀ ids seed, length ids = 50%nat →
     ∃ shards,
       shardBySize ids [100; 500; -1] seed None = Some shards ∧
       (λ b, length (elems b)) <$> shards = [50; 0; 0]%nat).
Proof.
  assert (Hexample : ∀ ids seed (s0 s1 s2 : Z),
    ids ≠ [] → Z.of_nat (length ids) < 2 ^ 62 →
    sizeShares ids [100; 500; -1] None = [s0; s1; s2] →
    ∃ shards, shardBySize ids [100; 500; -1] seed None = Some shards ∧
      (λ b, length (elems b)) <$> shards = [Z.to_nat s0; Z.to_nat s1; Z.to_nat s2]).
  { intros ids seed s0 s1 s2 Hne Hlen Hshares.
    destruct (shardBySize_buckets ids [100; 500; -1] seed None)
      as (shards & Hrun & Hlen' & _ & Hlook);
      [done|repeat constructor; lia|simpl; intros; lia|constructor|done|].
    exists shards. split; [done|]. rewrite Hshares in Hlook.
    apply (three_buckets shards s0 s1 s2 Hlen').
    intros i share Hi. destruct (Hlook i share Hi) as (bucket & piece & ? & ? & _ & ?).
    by exists bucket, piece. }
  split_and!.
  - intros ids sizes seed reservations unres Hn Hsizes Hcount Hfit Hdisj.
    destruct (decide (unres = [])) as [Hnil|Hne].
    + exists (replicate (length sizes) nilSlice). split_and!.
      * unfold shardBySize. fold unres. by rewrite Hnil, decide_True.
      * by rewrite length_replicate.
      * intros i share Hi. exists nilSlice.
        assert (share = 0) as ->.
        { unfold sizeShares in Hi. fold unres in Hi. rewrite Hnil in Hi.
          pose proof (sharesFrom_exhausted
            (sizeTarget (reservedCount reservations)) 0 0 sizes) as Hzero.
          rewrite Forall_forall in Hzero. apply Hzero.
          by eapply list_elem_of_lookup_2. }
        split; [|done]. apply lookup_replicate_2.
        apply lookup_lt_Some in Hi. unfold sizeShares in Hi.
        by rewrite length_sharesFrom in Hi.
    + destruct (shardBySize_buckets ids sizes seed reservations)
        as (shards & Hrun & Hlen & _ & Hlook); [done..|].
      exists shards. split_and!; [done|done|].
      intros i share Hi. destruct (Hlook i share Hi) as (bucket & piece & Hb & Hperm & Hsub & <-).
      exists bucket. split; [done|]. f_equal.
      eapply count_of_pool; [apply sortAndShuffleIfSeed_perm|done| |done].
      intros id Hid. apply Hdisj. by eapply reservedAt_subseteq.
  - intros ids seed Hlen.
    apply (Hexample ids seed 100 500 100).
    + intros ->. done.
    + rewrite Hlen. lia.
    + unfold sizeShares. simpl unreservedOf. rewrite Hlen. vm_compute. reflexivity.
  - intros ids seed Hlen.
    apply (Hexample ids seed 50 0 0).
    + intros ->. done.
    + rewrite Hlen. lia.
    + unfold sizeShares. simpl unreservedOf. rewrite Hlen. vm_compute. reflexivity.
Qed.

End SharesTheorems.

(** ** Reservations, whatever the order in which the map is visited *)

Lemma inRange_bucketOf n e : inRange n e → 0 ≤ bucketOf e < n.
Proof. intros (idx & Hidx & ?). unfold bucketOf. by rewrite Hidx. Qed.

(** Every recorded count is the length of a reserved list. *)
Lemma foldl_recordCount_values entries counts idx c :
  foldl recordCount counts entries !! idx = Some c →
  counts !! idx = Some c ∨
  ∃ e, e ∈ entries ∧ c = Z.of_nat (length (elems e.2)).
Proof.
  revert counts. induction entries as [|e entries IH]; intros counts Hc; simpl in Hc.
  { by left. }
  apply IH in Hc as [Hc|(e' & He' & ->)].
  - unfold recordCount in Hc. rewrite lookup_insert in Hc. case_decide.
    + right. exists e. split; [by left|congruence].
    + by left.
  - right. exists e'. split; [by right|done].
Qed.

Lemma length_reserved_list (rm : reservedMap) e :
  e ∈ rm → (length (elems e.2) ≤ length (reservedIDsOf rm))%nat.
Proof.
  induction rm as [|e' rm IH]; intros He; [by apply elem_of_nil in He|].
  destruct e' as [k l]. rewrite reservedIDsOf_cons, length_app.
  apply elem_of_cons in He as [->|He]; simpl; [lia|]. apply IH in He. lia.
Qed.

Lemma NoDup_subseteq_length (l k : list string) :
  NoDup l → l ⊆ k → (length l ≤ length k)%nat.
Proof. intros Hnd Hsub. by apply submseteq_length, NoDup_submseteq. Qed.

(** The reserved identifiers and the unreserved pool together are the pool. *)
Lemma reserved_unreserved (pool reserved : list string) :
  NoDup pool → NoDup reserved → reserved ⊆ pool →
  reserved ++ filter (λ id, id ∉ reserved) pool ≡ₚ pool.
Proof.
  intros Hpool Hres Hsub. apply NoDup_Permutation; [|done|].
  - apply NoDup_app. split_and!; [done| |by apply NoDup_filter].
    intros id Hid [Hnot _]%list_elem_of_filter. done.
  - intros id. rewrite elem_of_app, list_elem_of_filter.
    destruct (decide (id ∈ reserved)); naive_solver.
Qed.

Lemma filter_complement (P : string → Prop) `{∀ x, Decision (P x)} (l : list string) :
  filter (λ x, ¬ P x) l ++ filter P l ≡ₚ l.
Proof.
  induction l as [|x l IH]; [done|].
  destruct (decide (P x)).
  - rewrite filter_cons_False, filter_cons_True by tauto.
    by rewrite <-Permutation_middle, IH.
  - rewrite filter_cons_True, filter_cons_False by tauto. simpl. by rewrite IH.
Qed.

(** The pool after exclusions, and what the exclusions removed. *)
Lemma applyExclusions_filter ids excludeIDs :
  applyExclusions ids excludeIDs = filter (λ id, id ∉ excludeIDs) ids.
Proof.
  unfold applyExclusions. case_decide as Hlen.
  - apply nil_length_inv in Hlen as ->. symmetry. apply filter_all.
    intros x _. apply not_elem_of_nil.
  - apply list_filter_iff. intros id. by rewrite elem_of_list_to_set.
Qed.

Lemma applyExclusions_excluded ids excludeIDs :
  applyExclusions ids excludeIDs ++ filter (λ id, id ∈ excludeIDs) ids ≡ₚ ids.
Proof. rewrite applyExclusions_filter. apply filter_complement. Qed.

(** No identifier is in two buckets when the buckets hold no duplicate. *)
Lemma NoDup_allElems_disjoint shards i j bi bj id :
  NoDup (allElems shards) →
  shards !! i = Some bi → shards !! j = Some bj →
  id ∈ elems bi → id ∈ elems bj → i = j.
Proof.
  revert i j. induction shards as [|b shards IH]; intros i j Hnd Hi Hj Hbi Hbj; [done|].
  unfold allElems in Hnd. csimpl in Hnd. fold (allElems shards) in Hnd.
  apply NoDup_app in Hnd as (_ & Hdisj & Hnd).
  assert (Hin : ∀ k bk, shards !! k = Some bk → id ∈ elems bk → id ∈ allElems shards).
  { intros k bk Hk Hbk. unfold allElems. apply list_elem_of_bind. exists bk.
    split; [done|]. by eapply list_elem_of_lookup_2. }
  destruct i as [|i], j as [|j]; simplify_eq/=; [done| | |f_equal; by apply IH].
  - destruct (Hdisj id Hbi). by eapply Hin.
  - destruct (Hdisj id Hbj). by eapply Hin.
Qed.

(** ** Completeness and disjointness *)

Lemma percentages_at_most_100 (pcts : list Z) :
  Forall (λ p, 0 ≤ p) pcts → sumZ pcts = 100 → Forall (λ p, 0 ≤ p ≤ 100) pcts.
Proof.
  intros Hpos. revert Hpos. generalize 100. induction pcts as [|p pcts IH]; intros total Hpos Hsum.
  { constructor. }
  apply Forall_cons in Hpos as [Hp Hpos]. simpl in Hsum.
  pose proof (sumZ_nonneg pcts Hpos). constructor; [lia|].
  eapply Forall_impl; [apply (IH (sumZ pcts)); done|]. simpl. lia.
Qed.

Section Partition.
Context `{StdLib}.

(** Whatever the strategy, the buckets hold the reserved identifiers and
    the distributable pool, each once. *)
Lemma applyStrategy_allElems cfg filtered r :
  validatedParameters cfg →
  Z.of_nat (length filtered) < 2 ^ 46 →
  Z.of_nat (length (UnreservedIDs r)) < 2 ^ 62 →
  Forall (λ s, s < 2 ^ 62) (ShardSizes cfg) →
  (Strategy cfg = "size" → last (ShardSizes cfg) = Some (-1)) →
  fits (resolveShardCount cfg) (Some r) →
  (∀ j, 0 ≤ reservedCount (Some r) j < 2 ^ 62) →
  (Strategy cfg = "percentage" ∨ Strategy cfg = "size" → UnreservedIDs r ≠ []) →
  ∃ shards,
    applyStrategy cfg filtered (Some r) = inr (Some shards) ∧
    allElems shards ≡ₚ reservedIDsOf (IDsByShard r) ++ UnreservedIDs r.
Proof.
  intros Hvalid HT Hn Hsizes Hlast Hfit Hcount Hne. unfold applyStrategy.
  destruct Hvalid as [(Hstrat & Hcnt & Hp & Hs)|[(Hstrat & Hcnt & Hp & Hs & Hpos & Hsum)|
    (Hstrat & Hcnt & Hp & Hs & Hpos & Honly)]]; [|rewrite Hstrat..].
  - assert (Hres : resolveShardCount cfg = ShardCount cfg).
    { unfold resolveShardCount. by rewrite Hp, Hs. }
    rewrite Hres in Hfit.
    destruct Hstrat as [Hstrat|Hstrat]; rewrite Hstrat; simpl.
    + unfold shardByRoundRobin. rewrite decide_False by lia. simpl unreservedOf.
      set (shards0 := roundRobin _ _ _ _).
      destruct (finishShards_is_Some (Some r) shards0) as [shards Hfin].
      { unfold shards0. rewrite roundRobin_length, length_replicate.
        by rewrite Z2Nat.id by lia. }
      exists shards. split; [by rewrite Hfin|].
      rewrite (finishShards_allElems _ _ _ Hfin). simpl. f_equiv.
      unfold shards0. rewrite roundRobin_allElems; [|lia|done|by rewrite length_replicate].
      by rewrite allElems_replicate_nil, sortAndShuffleIfSeed_perm.
    + unfold shardByRendezvous. rewrite decide_False by lia. simpl unreservedOf.
      set (shards0 := rendezvous _ _ _ _).
      destruct (finishShards_is_Some (Some r) shards0) as [shards Hfin].
      { unfold shards0. rewrite rendezvous_length, length_replicate.
        by rewrite Z2Nat.id by lia. }
      exists shards. split; [by rewrite Hfin|].
      rewrite (finishShards_allElems _ _ _ Hfin). simpl. f_equiv.
      unfold shards0. rewrite rendezvous_allElems; [|lia|by rewrite length_replicate].
      by rewrite allElems_replicate_empty.
  - assert (Hres : resolveShardCount cfg = Z.of_nat (length (ShardPercentages cfg))).
    { unfold resolveShardCount. rewrite decide_True; [done|].
      destruct (ShardPercentages cfg); [done|simpl; lia]. }
    rewrite Hres in Hfit. simpl.
    destruct (shardByPercentage_buckets filtered (ShardPercentages cfg) (Seed cfg) (Some r))
      as (shards & Hrun & _ & Hall & _);
      [done|done|by apply percentages_at_most_100|done|done|simpl; apply Hne; by left|].
    exists shards. split; [by rewrite Hrun|]. rewrite Hall. simpl. f_equiv.
    pose proof (sharesFrom_percentage_total (Z.of_nat (length filtered))
      (reservedCount (Some r)) (Z.of_nat (length (UnreservedIDs r))) 0
      (ShardPercentages cfg) 0 ltac:(lia) Hp) as Htotal.
    unfold percentageShares. simpl unreservedOf.
    replace (Z.of_nat (length (ShardPercentages cfg)) - 1)
      with (0 + Z.of_nat (length (ShardPercentages cfg)) - 1) by lia.
    rewrite take_ge by (rewrite sortAndShuffleIfSeed_length; lia).
    apply sortAndShuffleIfSeed_perm.
  - assert (Hres : resolveShardCount cfg = Z.of_nat (length (ShardSizes cfg))).
    { unfold resolveShardCount. rewrite Hp.
      destruct (ShardSizes cfg); [done|]. rewrite decide_False by (simpl; lia).
      rewrite decide_True; [done|simpl; lia]. }
    rewrite Hres in Hfit. simpl.
    destruct (shardBySize_buckets filtered (ShardSizes cfg) (Seed cfg) (Some r))
      as (shards & Hrun & _ & Hall & _); [done| |done|done|simpl; apply Hne; by right|].
    { rewrite Forall_forall in Hpos, Hsizes. apply Forall_forall. intros s Hin.
      specialize (Hpos s Hin). specialize (Hsizes s Hin). simpl in *. lia. }
    exists shards. split; [by rewrite Hrun|]. rewrite Hall. simpl. f_equiv.
    pose proof (sharesFrom_size_total (reservedCount (Some r))
      (Z.of_nat (length (UnreservedIDs r))) 0 (ShardSizes cfg) 0 ltac:(lia)
      (Hlast Hstrat)) as Htotal.
    unfold sizeShares. simpl unreservedOf.
    rewrite take_ge by (rewrite sortAndShuffleIfSeed_length; lia).
    apply sortAndShuffleIfSeed_perm.
Qed.

End Partition.

Section PartitionTheorem.
Context `{StdLib}.

(** C1 (as amended). For a pool of unique identifiers, validated
    parameters, and a reservation map that [applyReservations] accepts and
    whose identifiers are identifiers of the pool that are not excluded: with
    the round-robin and rendezvous strategies, and with the percentage
    strategy and the size strategy ending in -1 when some identifier is left
    to distribute, the run returns buckets which, together with the excluded
    identifiers, hold every identifier of the pool exactly once, and no
    identifier is in two buckets. *)
Theorem shards_partition_pool cfg sourceIDs :
  NoDup sourceIDs →
  validatedParameters cfg →
  Z.of_nat (length sourceIDs) < 2 ^ 46 →
  Forall (λ s, s < 2 ^ 62) (ShardSizes cfg) →
  (Strategy cfg = "size" → last (ShardSizes cfg) = Some (-1)) →
  NoDup (ReservedIDs cfg).*1 →
  Forall (inRange (resolveShardCount cfg)) (ReservedIDs cfg) →
  NoDup (reservedIDsOf (ReservedIDs cfg)) →
  (∀ id, id ∈ reservedIDsOf (ReservedIDs cfg) → id ∈ sourceIDs ∧ id ∉ ExcludeIDs cfg) →
  (Strategy cfg = "percentage" ∨ Strategy cfg = "size" →
     ∃ id, id ∈ sourceIDs ∧ (id ∉ ExcludeIDs cfg) ∧ id ∉ reservedIDsOf (ReservedIDs cfg)) →
  (∃ out, runShard cfg sourceIDs out) ∧
  ∀ out, runShard cfg sourceIDs out →
    ∃ shards, out = Shards shards ∧
      allElems shards ++ filter (λ id, id ∈ ExcludeIDs cfg) sourceIDs ≡ₚ sourceIDs ∧
      ∀ i j bi bj id, shards !! i = Some bi → shards !! j = Some bj →
        id ∈ elems bi → id ∈ elems bj → i = j.
Proof.
  intros Hnd Hvalid HT Hsizes Hlast Hkeys Hrange HndR Hres Hne.
  set (filtered := applyExclusions sourceIDs (ExcludeIDs cfg)).
  set (n := resolveShardCount cfg).
  assert (Hfiltered : filtered = filter (λ id, id ∉ ExcludeIDs cfg) sourceIDs)
    by apply applyExclusions_filter.
  assert (HndF : NoDup filtered) by (rewrite Hfiltered; by apply NoDup_filter).
  assert (HlenF : (length filtered ≤ length sourceIDs)%nat)
    by (rewrite Hfiltered; apply length_filter).
  assert (Hvisit : ∀ visit, visit ≡ₚ ReservedIDs cfg →
    reservedIDsOf visit ≡ₚ reservedIDsOf (ReservedIDs cfg) ∧
    Forall (inRange n) visit ∧ NoDup visit.*1 ∧
    ∃ info, applyReservations filtered visit n = inr info).
  { intros visit Hperm.
    assert (reservedIDsOf visit ≡ₚ reservedIDsOf (ReservedIDs cfg)) as HR
      by (unfold reservedIDsOf; by rewrite Hperm).
    split_and!; [done|by rewrite Hperm|by rewrite Hperm|].
    apply applyReservations_total; [by rewrite Hperm|by rewrite HR]. }
  assert (Hcore : ∀ visit info visit',
    visit ≡ₚ ReservedIDs cfg →
    applyReservations filtered visit n = inr info →
    visit' ≡ₚ IDsByShard info →
    ∃ shards,
      applyStrategy cfg filtered (Some (visited info visit')) = inr (Some shards) ∧
      allElems shards ++ filter (λ id, id ∈ ExcludeIDs cfg) sourceIDs ≡ₚ sourceIDs ∧
      ∀ i j bi bj id, shards !! i = Some bi → shards !! j = Some bj →
        id ∈ elems bi → id ∈ elems bj → i = j).
  { intros visit info visit' Hperm Hinfo Hperm'.
    destruct (Hvisit visit Hperm) as (HR & Hrange' & Hkeys' & _).
    apply applyReservations_inr in Hinfo as (_ & HndR' & Hunres & Hby & Hcounts).
    rewrite (foldl_recordEntry_fresh [] visit Hkeys') in Hby. simpl in Hby.
    rewrite Hby in Hperm'.
    assert (HR' : reservedIDsOf visit' ≡ₚ reservedIDsOf visit)
      by (unfold reservedIDsOf; by rewrite Hperm').
    assert (HsubR : reservedIDsOf visit ⊆ filtered).
    { intros id Hid. rewrite HR in Hid. apply Hres in Hid as [? ?].
      rewrite Hfiltered. by apply list_elem_of_filter. }
    assert (HlenR : (length (reservedIDsOf visit) ≤ length filtered)%nat)
      by (by apply NoDup_subseteq_length).
    assert (HlenU : (length (UnreservedIDs info) ≤ length filtered)%nat)
      by (rewrite Hunres; apply length_filter).
    destruct (applyStrategy_allElems cfg filtered (visited info visit'))
      as (shards & Hrun & Hall); [done|lia|simpl; lia|done|done| | | |].
    - unfold fits. simpl. rewrite Hperm'.
      eapply Forall_impl; [exact Hrange'|]. apply inRange_bucketOf.
    - intros j. simpl. destruct (CountsByShard info !! j) as [c|] eqn:Hc; simpl; [|lia].
      rewrite Hcounts in Hc.
      apply foldl_recordCount_values in Hc as [Hc|(e & He & ->)]; [done|].
      apply length_reserved_list in He. lia.
    - intros Hstrat. destruct (Hne Hstrat) as (id & Hsrc & Hexcl & Hnot). simpl.
      rewrite Hunres. intros Hnil.
      assert (id ∈ filter (λ id, id ∉ reservedIDsOf visit) filtered) as Hin.
      { apply list_elem_of_filter. rewrite HR. split; [done|].
        rewrite Hfiltered. by apply list_elem_of_filter. }
      rewrite Hnil in Hin. by apply elem_of_nil in Hin.
    - assert (Hshards : allElems shards ≡ₚ filtered).
      { rewrite Hall. simpl. rewrite HR', Hunres. by apply reserved_unreserved. }
      exists shards. split_and!; [done| |].
      + rewrite Hshards. apply applyExclusions_excluded.
      + intros i j bi bj id. apply NoDup_allElems_disjoint. by rewrite Hshards. }
  split.
  - destruct (Hvisit (ReservedIDs cfg)) as (_ & _ & _ & info & Hinfo); [done|].
    eexists. by eapply (runShard_strategy cfg sourceIDs (ReservedIDs cfg) info (IDsByShard info)).
  - intros out Hrun. destruct Hrun as [visit e Hperm He|visit info visit' Hperm Hinfo Hperm'].
    + destruct (Hvisit visit Hperm) as (_ & _ & _ & info & Hinfo).
      fold filtered n in He. congruence.
    + destruct (Hcore visit info visit' Hperm Hinfo Hperm') as (shards & Hrun & Hall & Hdisj).
      exists shards. fold filtered. rewrite Hrun. done.
Qed.

End PartitionTheorem.

(** ** Determinism: the order of the input does not matter *)









Section Determinism.
Context `{StdLib}.







End Determinism.


Section DeterminismTheorem.
Context `{StdLib}.





End DeterminismTheorem.

(** ** A reserved identifier goes to the bucket its shard name scans to *)


Section Pins.
Context `{StdLib}.




End Pins.

(** ** The theorems at concrete inputs *)


Lemma pinned11_counts j : 0 ≤ reservedCount (Some pinned11) j < 2 ^ 62.
Proof.
  simpl. destruct (decide (j = 0)) as [->|Hj].
  - rewrite lookup_singleton_eq. simpl. lia.
  - rewrite lookup_singleton_ne by done. simpl. lia.
Defined.

(** C1, witness. *)
Lemma shards_partition_pool_witness :
  ∃ out, runShard roundRobinRun ["1"; "2"; "3"; "4"] out.
Proof.
  refine (proj1 (shards_partition_pool roundRobinRun ["1"; "2"; "3"; "4"] _ _ _ _ _ _ _ _ _ _)).
  - apply (bool_decide_unpack _). vm_compute. exact I.
  - left. simpl. split_and!; [by left|lia|done|done].
  - simpl. lia.
  - constructor.
  - intros Hs. vm_compute in Hs. discriminate.
  - apply (bool_decide_unpack _). vm_compute. exact I.
  - constructor; [|constructor]. exists 1. split; [vm_compute; reflexivity|].
    unfold resolveShardCount. simpl. lia.
  - apply (bool_decide_unpack _). vm_compute. exact I.
  - intros id Hid. apply list_elem_of_singleton in Hid as ->.
    split; apply (bool_decide_unpack _); vm_compute; exact I.
  - intros [Hs|Hs]; vm_compute in Hs; discriminate.
Defined.

(** C1, counterexample to the claim as stated. With sizes [1, 1] the third
    identifier of the pool is in no bucket although it is not excluded; and
    an identifier reserved without being in the pool is in a bucket. *)
Lemma shards_do_not_partition_pool :
  (validatedParameters sizesWithoutRemainder ∧
   runShard sizesWithoutRemainder ["1"; "2"; "3"] (Shards [Slice ["1"]; Slice ["2"]]) ∧
   "3" ∉ allElems [Slice ["1"]; Slice ["2"]] ++
           filter (λ id, id ∈ ExcludeIDs sizesWithoutRemainder) ["1"; "2"; "3"]) ∧
  (validatedParameters strangerReserved ∧
   runShard strangerReserved ["1"] (Shards [Slice ["1"; "9"]]) ∧
   "9" ∈ allElems [Slice ["1"; "9"]] ∧ "9" ∉ ["1"]).
Proof.
  split; split_and!.
  - right; right. simpl. split_and!; [done|lia|done|done| |].
    + repeat constructor; lia.
    + intros [|[|i]] Hi; simplify_eq/=.
  - assert (Hrun : ∃ info,
      applyReservations (applyExclusions ["1"; "2"; "3"] (ExcludeIDs sizesWithoutRemainder))
        [] (resolveShardCount sizesWithoutRemainder) = inr info ∧
      IDsByShard info = [] ∧
      outcomeOf (applyStrategy sizesWithoutRemainder
        (applyExclusions ["1"; "2"; "3"] (ExcludeIDs sizesWithoutRemainder))
        (Some (visited info []))) = Shards [Slice ["1"]; Slice ["2"]]).
    { eexists. split_and!; [reflexivity|reflexivity|vm_compute; reflexivity]. }
    destruct Hrun as (info & Hinfo & Hby & <-).
    apply (runShard_strategy _ _ [] info []); [done|done|by rewrite Hby].
  - apply (bool_decide_unpack _). vm_compute. exact I.
  - left. simpl. split_and!; [by left|lia|done|done].
  - assert (Hrun : ∃ info,
      applyReservations (applyExclusions ["1"] (ExcludeIDs strangerReserved))
        (ReservedIDs strangerReserved) (resolveShardCount strangerReserved) = inr info ∧
      IDsByShard info = ReservedIDs strangerReserved ∧
      outcomeOf (applyStrategy strangerReserved
        (applyExclusions ["1"] (ExcludeIDs strangerReserved))
        (Some (visited info (ReservedIDs strangerReserved)))) = Shards [Slice ["1"; "9"]]).
    { eexists. split_and!; [vm_compute; reflexivity|reflexivity|vm_compute; reflexivity]. }
    destruct Hrun as (info & Hinfo & Hby & <-).
    apply (runShard_strategy _ _ (ReservedIDs strangerReserved) info
             (ReservedIDs strangerReserved)); [done|done|by rewrite Hby].
  - apply (bool_decide_unpack _). vm_compute. exact I.
  - apply (bool_decide_unpack _). vm_compute. exact I.
Qed.


(** C4, witness: ten identifiers over two shards, an eleventh pinned. *)
Lemma shardByRendezvous_highest_weight_witness :
  ∃ shards, shardByRendezvous tenIDs 2 "wave" (Some pinned11) = Some shards ∧
    ∀ id, id ∈ tenIDs →
      ∃ k bucket,
        0 ≤ k < 2 ∧
        (∀ s, 0 ≤ s < 2 → weight id s "wave" ≤ weight id k "wave") ∧
        (∀ s, 0 ≤ s < k → weight id s "wave" < weight id k "wave") ∧
        shards !! Z.to_nat k = Some bucket ∧ id ∈ elems bucket.
Proof.
  refine (proj2 (shardByRendezvous_highest_weight tenIDs 2 "wave" (Some pinned11) _)).
  repeat constructor; vm_compute; congruence.
Defined.

(** C5, witness: from two shards to three. *)
Lemma shardByRendezvous_minimal_movement_witness :
  ∃ shards shards',
    shardByRendezvous tenIDs 2 "wave" None = Some shards ∧
    shardByRendezvous tenIDs (2 + 1) "wave" None = Some shards' ∧
    ∀ id, id ∈ tenIDs →
      ∃ k k' bucket bucket',
        k = selectShard id "wave" 2 ∧ k' = selectShard id "wave" (2 + 1) ∧
        shards !! Z.to_nat k = Some bucket ∧ id ∈ elems bucket ∧
        shards' !! Z.to_nat k' = Some bucket' ∧ id ∈ elems bucket' ∧
        (k' ≠ k → weight id 2 "wave" > weight id k "wave" ∧ k' = 2) ∧
        (weight id 2 "wave" > weight id k "wave" → k' = 2) ∧
        (weight id 2 "wave" ≤ weight id k "wave" → k' = k).
Proof.
  refine (shardByRendezvous_minimal_movement tenIDs 2 "wave" _). lia.
Defined.

(** C6, witness: ten identifiers, percentages [10, 30, 60], one identifier
    pinned to shard 0. *)
Lemma shardByPercentage_shares_witness :
  ∃ shards,
    shardByPercentage tenIDs [10; 30; 60] "wave" (Some pinned11) = Some shards ∧
    length shards = 3%nat ∧
    ∀ i share, percentageShares tenIDs [10; 30; 60] (Some pinned11) !! i = Some share →
      ∃ bucket, shards !! i = Some bucket ∧
        Z.of_nat (length (filter (λ id, id ∈ tenIDs) (elems bucket))) = share.
Proof.
  refine (proj1 shardByPercentage_shares tenIDs [10; 30; 60] "wave" (Some pinned11)
            _ _ _ pinned11_counts _ _).
  - simpl. lia.
  - simpl. lia.
  - repeat constructor; lia.
  - repeat constructor; vm_compute; congruence.
  - intros id Hid. apply list_elem_of_singleton in Hid as ->.
    apply (bool_decide_unpack _). vm_compute. exact I.
Defined.

(** The shares of sizes at a concrete input: ten identifiers, sizes
    [3, 20, -1], one identifier pinned to shard 0. *)
Lemma shardBySize_shares_witness :
  ∃ shards,
    shardBySize tenIDs [3; 20; -1] "wave" (Some pinned11) = Some shards ∧
    length shards = 3%nat ∧
    ∀ i share, sizeShares tenIDs [3; 20; -1] (Some pinned11) !! i = Some share →
      ∃ bucket, shards !! i = Some bucket ∧
        Z.of_nat (length (filter (λ id, id ∈ tenIDs) (elems bucket))) = share.
Proof.
  refine (proj1 shardBySize_shares tenIDs [3; 20; -1] "wave" (Some pinned11)
            _ _ pinned11_counts _ _).
  - simpl. lia.
  - repeat constructor; lia.
  - repeat constructor; vm_compute; congruence.
  - intros id Hid. apply list_elem_of_singleton in Hid as ->.
    apply (bool_decide_unpack _). vm_compute. exact I.
Defined.



